(* ===================================================================== *)
(* Mini Event Manager (apps/web/app/events/page.tsx)                      *)
(*                                                                         *)
(* A shallow embedding of the event store (zustand + persist), of the     *)
(* derived sorted and filtered view, of the react-hook-form validation    *)
(* rules and of the date helpers, followed by the properties the          *)
(* specification states about them.                                       *)
(*                                                                         *)
(* JavaScript strings are sequences of UTF-16 code units (seq N).         *)
(* Functions of the JavaScript engine whose result depends on Unicode     *)
(* tables, on the locale or on the engine (toLowerCase, localeCompare,    *)
(* Date parsing, toLocaleDateString) are variables of the section that    *)
(* holds the program; a reference engine defined first instantiates them. *)
(* ===================================================================== *)

From Stdlib Require Import ZArith NArith Lia String Ascii.
From HB Require Import structures.
From mathcomp Require Import ssreflect ssrfun ssrbool eqtype ssrnat seq path.

Set Implicit Arguments.
Unset Strict Implicit.
Unset Printing Implicit Defensive.

(* --------------------------------------------------------------------- *)
(* JavaScript strings                                                     *)
(* --------------------------------------------------------------------- *)

(** A string value: its UTF-16 code units, in order. *)
Definition str := seq N.

(** The code units of an ASCII literal. *)
Definition js (s : string) : str :=
  [seq N_of_ascii c | c <- list_ascii_of_string s].
Arguments js s%_string.

(** WhiteSpace and LineTerminator code points of ECMAScript: TAB, LF, VT,
    FF, CR, SP, NBSP, U+1680, U+2000..U+200A, LS, PS, U+202F, U+205F,
    U+3000 and the byte order mark. All of them are single code units. *)
Definition isWhiteSpace (c : N) : bool :=
  [|| (9 <=? c)%num && (c <=? 13)%num,
      c == 32%num, c == 160%num, c == 5760%num,
      (8192 <=? c)%num && (c <=? 8202)%num,
      c == 8232%num, c == 8233%num, c == 8239%num, c == 8287%num,
      c == 12288%num | c == 65279%num].

(** String.prototype.trimStart *)
Fixpoint trimStart (s : str) : str :=
  if s is c :: s' then (if isWhiteSpace c then trimStart s' else s) else [::].

(** String.prototype.trimEnd *)
Fixpoint trimEnd (s : str) : str :=
  if s is c :: s' then
    if trimEnd s' is d :: r then c :: d :: r
    else if isWhiteSpace c then [::] else [:: c]
  else [::].

(** String.prototype.trim *)
Definition trim (s : str) : str := trimEnd (trimStart s).

(** q is a prefix of s *)
Fixpoint startsWith (s q : str) : bool :=
  match q, s with
  | [::], _ => true
  | _ :: _, [::] => false
  | b :: q', a :: s' => (a == b) && startsWith s' q'
  end.

(** String.prototype.includes, search from position 0 *)
Fixpoint includes (s q : str) : bool :=
  startsWith s q || (if s is _ :: s' then includes s' q else false).

(** String.prototype.slice for 0 <= b <= e *)
Definition slice (b e : nat) (s : str) : str := take (e - b) (drop b s).

(** Lower-casing of the letters A..Z; every other code unit is kept. *)
Definition lowerUnit (c : N) : N :=
  if (65 <=? c)%num && (c <=? 90)%num then (c + 32)%num else c.

Definition lowerASCII (s : str) : str := [seq lowerUnit c | c <- s].

(** Comparison of two strings by their code units. *)
Fixpoint compareUnits (a b : str) : comparison :=
  match a, b with
  | [::], [::] => Eq
  | [::], _ :: _ => Lt
  | _ :: _, [::] => Gt
  | x :: a', y :: b' =>
      match (x ?= y)%num with Eq => compareUnits a' b' | c => c end
  end.

(** An ASCII code unit. *)
Definition isAscii (c : N) : bool := (c <? 128)%num.

(** Truthiness of a string: the empty string is the only falsy one. *)
Definition truthy (s : str) : bool := s != [::].

(* --------------------------------------------------------------------- *)
(* Completions: a value, or a thrown exception                            *)
(* --------------------------------------------------------------------- *)

Inductive exn := RangeError | TypeError.

Inductive completion (A : Type) := Normal (a : A) | Throw (e : exn).
Arguments Normal {A} a.
Arguments Throw {A} e.

Definition tryCatch {A} (body : completion A) (handler : exn -> completion A) :=
  match body with Normal a => Normal a | Throw e => handler e end.

(** The completion is a value. *)
Definition isNormal (A : Type) (c : completion A) : bool :=
  if c is Normal _ then true else false.

(* --------------------------------------------------------------------- *)
(* The pattern /^\d{4}-\d{2}-\d{2}$/                                      *)
(* --------------------------------------------------------------------- *)

(** \d : an ASCII digit *)
Definition isDigit (c : N) : bool := (48 <=? c)%num && (c <=? 57)%num.

(** \d{n} : consumes exactly n digits, returns the rest *)
Fixpoint digits (n : nat) (s : str) : option str :=
  if n is n'.+1 then
    if s is c :: s' then (if isDigit c then digits n' s' else None) else None
  else Some s.

(** - : consumes one hyphen *)
Definition hyphen (s : str) : option str :=
  if s is c :: s' then (if c == 45%num then Some s' else None) else None.

(** /^\d{4}-\d{2}-\d{2}$/.test(v) *)
Definition testISOPattern (v : str) : bool :=
  if obind (digits 2) (obind hyphen (obind (digits 2) (obind hyphen (digits 4 v))))
  is Some [::] then true else false.

(** v has the shape dddd-dd-dd. *)
Definition matchesISOPattern (v : str) : Prop :=
  exists y1 y2 y3 y4 m1 m2 d1 d2,
    all isDigit [:: y1; y2; y3; y4; m1; m2; d1; d2] /\
    v = [:: y1; y2; y3; y4; 45%num; m1; m2; 45%num; d1; d2].

(** The number a run of digits denotes. *)
Definition numOf (s : str) : Z :=
  foldl (fun acc c => (acc * 10 + (Z.of_N c - 48))%Z) 0%Z s.

Definition yearOf (v : str) : Z := numOf (take 4 v).
Definition monthOf (v : str) : Z := numOf (take 2 (drop 5 v)).
Definition dayOf (v : str) : Z := numOf (take 2 (drop 8 v)).

(** Year, month and day as one number: dates of the shape dddd-dd-dd are
    in calendar order when their keys are in numeric order. *)
Definition dateKey (v : str) : Z :=
  (yearOf v * 10000 + monthOf v * 100 + dayOf v)%Z.

(* --------------------------------------------------------------------- *)
(* A reference engine                                                     *)
(* --------------------------------------------------------------------- *)

Module Ref.

(** toLowerCase, exact on ASCII strings. *)
Definition toLowerCase (s : str) : str := lowerASCII s.

Definition signOf (c : comparison) : Z :=
  match c with Lt => (-1)%Z | Eq => 0%Z | Gt => 1%Z end.

(** localeCompare as the comparison by code units: -1, 0 or 1. *)
Definition localeCompare (a b : str) : Z := signOf (compareUnits a b).

Definition isLeap (y : Z) : bool :=
  ((y mod 4 =? 0) && ~~ (y mod 100 =? 0) || (y mod 400 =? 0))%Z.

Definition daysInMonth (y m : Z) : Z :=
  if (m =? 2)%Z then (if isLeap y then 29 else 28)%Z
  else if [|| (m =? 4)%Z, (m =? 6)%Z, (m =? 9)%Z | (m =? 11)%Z] then 30%Z
  else 31%Z.

(** Days from 1970-01-01 to y-m-d in the proleptic Gregorian calendar. *)
Definition daysFromCivil (y m d : Z) : Z :=
  (let y' := if m <=? 2 then y - 1 else y in
   let era := y' / 400 in
   let yoe := y' - era * 400 in
   let doy := (153 * (if 2 <? m then m - 3 else m + 9) + 2) / 5 + d - 1 in
   let doe := yoe * 365 + yoe / 4 - yoe / 100 + doy in
   era * 146097 + doe - 719468)%Z.

(** The inverse: year, month and day of a day count. *)
Definition civilFromDays (z0 : Z) : Z * Z * Z :=
  (let z := z0 + 719468 in
   let era := z / 146097 in
   let doe := z - era * 146097 in
   let yoe := (doe - doe / 1460 + doe / 36524 - doe / 146096) / 365 in
   let doy := doe - (365 * yoe + yoe / 4 - yoe / 100) in
   let mp := (5 * doy + 2) / 153 in
   let d := doy - (153 * mp + 2) / 5 + 1 in
   let m := if mp <? 10 then mp + 3 else mp - 9 in
   (if m <=? 2 then yoe + era * 400 + 1 else yoe + era * 400, m, d))%Z.

(** The time value of a date-only ISO string (UTC midnight, in ms); NaN
    (None) for every other string and for days the calendar lacks. *)
Definition dateParse (v : str) : option Z :=
  if testISOPattern v then
    let y := yearOf v in let m := monthOf v in let d := dayOf v in
    if [&& (1 <=? m)%Z, (m <=? 12)%Z, (1 <=? d)%Z & (d <=? daysInMonth y m)%Z]
    then Some (86400000 * daysFromCivil y m d)%Z
    else None
  else None.

Definition digitUnit (z : Z) : N := Z.to_N (48 + z mod 10).

Definition twoDigits (z : Z) : str := [:: digitUnit (z / 10); digitUnit z].

Definition fourDigits (z : Z) : str :=
  [:: digitUnit (z / 1000); digitUnit (z / 100); digitUnit (z / 10); digitUnit z].

Definition monthShort (m : Z) : str :=
  nth [::] [:: js "Jan"; js "Feb"; js "Mar"; js "Apr"; js "May"; js "Jun";
               js "Jul"; js "Aug"; js "Sep"; js "Oct"; js "Nov"; js "Dec"]
      (Z.to_nat (m - 1)).

(** toLocaleDateString(undefined, {year: "numeric", month: "short",
    day: "2-digit"}) in en-US and UTC: "Jan 05, 2025". *)
Definition toLocaleDateString (t : Z) : completion str :=
  let: (y, m, d) := civilFromDays (t / 86400000)%Z in
  Normal (monthShort m ++ js " " ++ twoDigits d ++ js ", " ++ fourDigits y).

End Ref.


(* --------------------------------------------------------------------- *)
(* An engine that checks the day against 31 only                          *)
(* --------------------------------------------------------------------- *)

Module Lenient.

(** The time value of a date-only ISO string for a parser that accepts
    every day from 01 to 31 in every month and counts the days a month
    lacks into the next one, as V8 does: 2025-02-30 is 2025-03-02. *)
Definition dateParse (v : str) : option Z :=
  if testISOPattern v then
    let y := yearOf v in let m := monthOf v in let d := dayOf v in
    if [&& (1 <=? m)%Z, (m <=? 12)%Z, (1 <=? d)%Z & (d <=? 31)%Z]
    then Some (86400000 * Ref.daysFromCivil y m d)%Z
    else None
  else None.

End Lenient.


(* --------------------------------------------------------------------- *)
(* Data model                                                             *)
(* --------------------------------------------------------------------- *)

Record EventItem := mkEvent { id : str; name : str; date : str }.

Definition tupleOfEvent (e : EventItem) : str * str * str :=
  (id e, name e, date e).
Definition eventOfTuple (t : str * str * str) : EventItem :=
  mkEvent t.1.1 t.1.2 t.2.
Lemma tupleOfEventK : cancel tupleOfEvent eventOfTuple.
Proof. by case. Qed.
HB.instance Definition _ := Equality.copy EventItem (can_type tupleOfEventK).

(** The data fields of EventsState; its three function fields are the
    operations setSearch, addEvent and deleteEvent below. *)
Record EventsState := mkState { events : seq EventItem; search : str }.

Definition LOCAL_STORAGE_KEY : string := "mini-event-manager:events".

(** What one call of generateId reads from its environment:
    cryptoRandomUUID is None when crypto or crypto.randomUUID is missing and
    otherwise holds the value crypto.randomUUID() returns at this call;
    dateNow is the decimal rendering of Date.now() and mathRandom36 the
    string Math.random().toString(36). *)
Record Entropy := mkEntropy {
  cryptoRandomUUID : option str;
  dateNow : str;
  mathRandom36 : str
}.

(** generateId *)
Definition generateId (w : Entropy) : str :=
  if cryptoRandomUUID w is Some uuid then uuid
  else dateNow w ++ js "_" ++ slice 2 10 (mathRandom36 w).

(* --------------------------------------------------------------------- *)
(* The store                                                              *)
(* --------------------------------------------------------------------- *)

Definition initialState : EventsState := mkState [::] [::].

(** setSearch: (q) => set({ search: q }) *)
Definition setSearch (q : str) (state : EventsState) : EventsState :=
  mkState (events state) q.

(** addEvent: appends { id: generateId(), name: name.trim(), date } *)
Definition addEvent (w : Entropy) (name date : str) (state : EventsState)
  : EventsState :=
  mkState (rcons (events state) (mkEvent (generateId w) (trim name) date))
          (search state).

(** deleteEvent: keeps the events e with e.id !== id *)
Definition deleteEvent (i : str) (state : EventsState) : EventsState :=
  mkState [seq e <- events state | id e != i] (search state).

(** The ids in the collection, in order. *)
Definition ids (state : EventsState) : seq str := [seq id e | e <- events state].

(** Default element for nth and last. *)
Definition noEvent : EventItem := mkEvent [::] [::] [::].

(** The operations a session performs on the store. *)
Inductive action :=
| AddEvent (w : Entropy) (name date : str)
| DeleteEvent (i : str)
| SetSearch (q : str).

Definition isDelete (a : action) : bool :=
  if a is DeleteEvent _ then true else false.

Definition step (state : EventsState) (a : action) : EventsState :=
  match a with
  | AddEvent w n d => addEvent w n d state
  | DeleteEvent i => deleteEvent i state
  | SetSearch q => setSearch q state
  end.

Definition runFrom (state : EventsState) (acts : seq action) : EventsState :=
  foldl step state acts.

(** A session that starts with the empty collection. *)
Definition run (acts : seq action) : EventsState := runFrom initialState acts.

(** The identifiers generateId returned during a run, oldest first. *)
Definition generated (acts : seq action) : seq str :=
  pmap (fun a => if a is AddEvent w _ _ then Some (generateId w) else None) acts.

(* --------------------------------------------------------------------- *)
(* Persistence (zustand persist: name, partialize, version)               *)
(* --------------------------------------------------------------------- *)

Inductive json :=
| JNull
| JBool (b : bool)
| JNumber (z : Z)
| JString (s : str)
| JArray (items : seq json)
| JObject (fields : seq (string * json)).

Fixpoint assoc (k : string) (fields : seq (string * json)) : option json :=
  if fields is (k', v) :: rest then
    (if String.eqb k' k then Some v else assoc k rest)
  else None.

Definition field (k : string) (j : json) : option json :=
  if j is JObject fields then assoc k fields else None.

Definition jsonOfEvent (e : EventItem) : json :=
  JObject [:: ("id"%string, JString (id e)); ("name"%string, JString (name e));
              ("date"%string, JString (date e))].

(** partialize: (state) => ({ events: state.events }) *)
Definition partialize (state : EventsState) : json :=
  JObject [:: ("events"%string, JArray [seq jsonOfEvent e | e <- events state])].

Definition version : Z := 1.

(** The value persist stores under the key: { state, version }. *)
Definition envelope (state : EventsState) : json :=
  JObject [:: ("state"%string, partialize state); ("version"%string, JNumber version)].

(** Local storage, by key; the stored text is held as the JSON value it
    denotes. *)
Definition Storage := string -> option json.

Definition setItem (k : string) (v : json) (stg : Storage) : Storage :=
  fun k' => if String.eqb k' k then Some v else stg k'.

Definition getItem (k : string) (stg : Storage) : option json := stg k.

(** persist writes the envelope of the new state after every set. *)
Definition persistSet (f : EventsState -> EventsState)
  (w : EventsState * Storage) : EventsState * Storage :=
  let state' := f w.1 in
  (state', setItem LOCAL_STORAGE_KEY (envelope state') w.2).

(** A session on the persisted store: every action goes through set. *)
Definition persistedRun (acts : seq action) (w : EventsState * Storage)
  : EventsState * Storage :=
  foldl (fun w a => persistSet (fun state => step state a) w) w acts.

Definition eventOfJson (j : json) : option EventItem :=
  match field "id" j, field "name" j, field "date" j with
  | Some (JString i), Some (JString n), Some (JString d) => Some (mkEvent i n d)
  | _, _, _ => None
  end.

Fixpoint eventsOfJson (items : seq json) : option (seq EventItem) :=
  if items is j :: rest then
    if eventOfJson j is Some e then
      (if eventsOfJson rest is Some es then Some (e :: es) else None)
    else None
  else Some [::].

(** Rehydration: the stored envelope is used when its version is the
    configured one (no migrate option is given); its state is merged over
    the current state, so search keeps its current value. A missing or
    unusable entry leaves the current state as it is. *)
Definition rehydrate (stg : Storage) (current : EventsState) : EventsState :=
  if getItem LOCAL_STORAGE_KEY stg is Some env then
    match field "version" env, field "state" env with
    | Some (JNumber v), Some persisted =>
        if (v =? version)%Z then
          match field "events" persisted with
          | Some (JArray items) =>
              if eventsOfJson items is Some es then mkState es (search current)
              else current
          | _ => current
          end
        else current
    | _, _ => current
    end
  else current.

(* --------------------------------------------------------------------- *)
(* The page: derived view, form flow, date helpers                        *)
(* --------------------------------------------------------------------- *)

Record FormValues := mkForm { formName : str; formDate : str }.

Definition defaultValues : FormValues := mkForm [::] [::].

Record Page := mkPage {
  store : EventsState;
  form : FormValues;
  nameError : option string;
  dateError : option string
}.

Definition initialPage : Page := mkPage initialState defaultValues None None.

(** One item of the rendered list: key={item.id}, the name, and
    formatDate(item.date). *)
Record Row := mkRow { rowKey : str; rowName : str; rowDate : completion str }.

(** The list under the search box: the item "No events yet." or one item
    per displayed event. *)
Inductive EventList := NoEventsYet | Rows (rows : seq Row).

(** What the user does on the page. *)
Inductive pageAction :=
| EditName (v : str)
| EditDate (v : str)
| Submit (w : Entropy)
| ClickDelete (i : str)
| EditSearch (q : str).

Section Engine.

(** String.prototype.toLowerCase *)
Variable toLowerCase : str -> str.
(** String.prototype.localeCompare in the default locale *)
Variable localeCompare : str -> str -> Z.
(** new Date(v).getTime(): the time value in ms, None for NaN *)
Variable dateParse : str -> option Z.
(** Date.prototype.toLocaleDateString(undefined, {year: "numeric",
    month: "short", day: "2-digit"}) of a time value *)
Variable toLocaleDateString : Z -> completion str.

(** The comparator (a, b) => a.date.localeCompare(b.date), as the order
    Array.prototype.sort reads from it: a is not after b. *)
Definition byDate : rel EventItem :=
  fun a b => (localeCompare (date a) (date b) <=? 0)%Z.

(** filteredEvents. Array.prototype.sort is a stable sort; path.sort is a
    stable merge sort. *)
Definition filteredEvents (events : seq EventItem) (search : str)
  : seq EventItem :=
  let q := toLowerCase (trim search) in
  let base := sort byDate events in
  if ~~ truthy q then base
  else [seq e <- base | includes (toLowerCase (name e)) q].

(** The date of e collates equal to d. *)
Definition sameRank (d : str) (e : EventItem) : bool :=
  (localeCompare (date e) d =? 0)%Z.

(** The name of e contains s, letter case ignored. *)
Definition nameMatches (s : str) (e : EventItem) : bool :=
  includes (toLowerCase (name e)) (toLowerCase s).

(** isValidISODate *)
Definition isValidISODate (v : str) : bool :=
  if ~~ testISOPattern v then false
  else let d := dateParse v in isSome d.

(** formatDate *)
Definition formatDate (isoDate : str) : completion str :=
  tryCatch
    (let d := dateParse isoDate in
     if d is Some t then toLocaleDateString t else Normal isoDate)
    (fun _ => Normal isoDate).

(** register("name", { required, validate, maxLength: 200 }): the error
    react-hook-form reports for a value, None when the field is valid.
    Rules run in the order required, maxLength, validate. *)
Definition validateName (v : str) : option string :=
  if v == [::] then Some "Event name is required"%string
  else if 200 < size v then Some "Max 200 characters"%string
  else if size (trim v) != 0 then None
  else Some "Event name cannot be empty"%string.

(** register("date", { required, validate: isValidISODate }) *)
Definition validateDate (v : str) : option string :=
  if v == [::] then Some "Date is required"%string
  else if isValidISODate v then None
  else Some "Invalid date"%string.

(** onSubmit: guards, calls addEvent, resets the form *)
Definition onSubmit (w : Entropy) (data : FormValues) (p : Page) : Page :=
  let trimmed := trim (formName data) in
  if ~~ truthy trimmed || ~~ truthy (formDate data) then p
  else mkPage (addEvent w trimmed (formDate data) (store p))
              defaultValues None None.

(** handleSubmit(onSubmit): runs the field rules on the current values and
    calls onSubmit only when no field has an error. *)
Definition handleSubmit (w : Entropy) (p : Page) : Page :=
  let en := validateName (formName (form p)) in
  let ed := validateDate (formDate (form p)) in
  if ~~ isSome en && ~~ isSome ed then onSubmit w (form p) p
  else mkPage (store p) (form p) en ed.

(** canSubmit, with isSubmitting false *)
Definition canSubmit (f : FormValues) : bool :=
  truthy (trim (formName f)) && truthy (formDate f).

(** An event as the form flow stores it: a trimmed, non-empty name of at
    most 200 code units and a date that isValidISODate accepts. *)
Definition wellFormed (e : EventItem) : bool :=
  [&& name e != [::], trim (name e) == name e, size (name e) <= 200
    & isValidISODate (date e)].

(** The <ul>: filteredEvents.length === 0 ? placeholder : rows *)
Definition renderList (state : EventsState) : EventList :=
  let view := filteredEvents (events state) (search state) in
  if size view == 0 then NoEventsYet
  else Rows [seq mkRow (id item) (name item) (formatDate (date item))
            | item <- view].

(** The handlers of the page. With mode "onChange" an edited field is
    validated as it changes; the Delete button of a row calls deleteEvent
    with the id of its item; the search box calls setSearch. *)
Definition pageStep (p : Page) (a : pageAction) : Page :=
  match a with
  | EditName v =>
      mkPage (store p) (mkForm v (formDate (form p)))
             (validateName v) (dateError p)
  | EditDate v =>
      mkPage (store p) (mkForm (formName (form p)) v)
             (nameError p) (validateDate v)
  | Submit w => handleSubmit w p
  | ClickDelete i =>
      mkPage (deleteEvent i (store p)) (form p) (nameError p) (dateError p)
  | EditSearch q =>
      mkPage (setSearch q (store p)) (form p) (nameError p) (dateError p)
  end.

Definition pageRun (acts : seq pageAction) : Page := foldl pageStep initialPage acts.

End Engine.

(* ===================================================================== *)
(* Properties                                                             *)
(* ===================================================================== *)

(* --------------------------------------------------------------------- *)
(* Strings                                                                *)
(* --------------------------------------------------------------------- *)

Section StringFacts.

Implicit Types (s q t : str) (c : N).

Lemma trimStart_all s : all isWhiteSpace s -> trimStart s = [::].
Proof. by elim: s => [|c s IH] //= /andP [-> /IH]. Qed.

Lemma trimStart_nil s : trimStart s = [::] -> all isWhiteSpace s.
Proof. by elim: s => [|c s IH] //=; case: (isWhiteSpace c). Qed.

Lemma trimStart_head s c t : trimStart s = c :: t -> ~~ isWhiteSpace c.
Proof.
elim: s => [|d s IH] //=; case E: (isWhiteSpace d) => //.
by case=> <- _; rewrite E.
Qed.

Lemma trimEnd_cons c s : ~~ isWhiteSpace c -> trimEnd (c :: s) = c :: trimEnd s.
Proof. by move=> /negbTE /= ->; case: (trimEnd s). Qed.

Lemma trimEnd_nil s : trimEnd s = [::] -> all isWhiteSpace s.
Proof.
elim: s => [|c s IH] //=; case E: (trimEnd s) IH => [|d r] // IH.
by case: (isWhiteSpace c) => // _; rewrite IH.
Qed.

Lemma trimEndE c s :
  trimEnd (c :: s) =
  if trimEnd s is _ :: _ then c :: trimEnd s
  else if isWhiteSpace c then [::] else [:: c].
Proof. by rewrite /=; case: (trimEnd s). Qed.

Lemma trimEnd_idem s : trimEnd (trimEnd s) = trimEnd s.
Proof.
elim: s => [|c s IH] //; rewrite trimEndE.
case E: (trimEnd s) IH => [|d r] IH.
  by case W: (isWhiteSpace c) => //=; rewrite W.
by rewrite trimEndE IH.
Qed.

Lemma trimEnd_all s : all isWhiteSpace s -> trimEnd s = [::].
Proof. by elim: s => [|c s IH] //= /andP [-> /IH ->]. Qed.

Lemma trimStart_rcons s c :
  trimStart (rcons s c) =
  if all isWhiteSpace s then (if isWhiteSpace c then [::] else [:: c])
  else rcons (trimStart s) c.
Proof. by elim: s => [|d s IH] //=; case: (isWhiteSpace d). Qed.

(** trimEnd removes at the end what trimStart removes at the start. *)
Lemma trimEnd_rev s : trimEnd s = rev (trimStart (rev s)).
Proof.
elim: s => [|c s IH] //; rewrite trimEndE rev_cons trimStart_rcons all_rev.
case W: (all isWhiteSpace s); first by rewrite trimEnd_all //; case: ifP.
rewrite rev_rcons -IH; case E: (trimEnd s) => [|d r] //.
by move/trimEnd_nil: E; rewrite W.
Qed.

Lemma trim_idem s : trim (trim s) = trim s.
Proof.
rewrite /trim; case E: (trimStart s) => [|c t] //.
have W := trimStart_head E.
by rewrite (trimEnd_cons _ W) /= (negbTE W) -(trimEnd_cons _ W) trimEnd_idem.
Qed.

Lemma trim_all s : all isWhiteSpace s -> trim s = [::].
Proof. by rewrite /trim => /trimStart_all ->. Qed.

Lemma trim_nil s : trim s = [::] -> all isWhiteSpace s.
Proof.
rewrite /trim; case E: (trimStart s) => [|c t]; first by move/trimStart_nil: E.
by move/trimEnd_nil => /= /andP [W _]; move: (trimStart_head E); rewrite W.
Qed.

Lemma startsWithP s q : reflect (exists r, s = q ++ r) (startsWith s q).
Proof.
elim: q s => [|b q IH] [|a s] /=; try by constructor; exists [::].
- by constructor; exists (a :: s).
- by constructor; case.
- apply: (iffP andP) => [[/eqP -> /IH [r ->]]|[r [-> ->]]]; first by exists r.
  by split=> //; apply/IH; exists r.
Qed.

Lemma startsWith_nil s : startsWith s [::] = true.
Proof. by case: s. Qed.

Lemma includes_nil s : includes s [::] = true.
Proof. by case: s. Qed.

Lemma includesE c s q :
  includes (c :: s) q = startsWith (c :: s) q || includes s q.
Proof. by []. Qed.

(** includes s q holds exactly when q occurs in s as a substring. *)
Lemma includesP s q : reflect (exists l r, s = l ++ q ++ r) (includes s q).
Proof.
elim: s => [|a s IH].
  case: q => [|b q] /=; constructor; first by exists [::], [::].
  by case=> [[|x l] [r]].
rewrite includesE.
apply: (iffP orP) => [[H|H]|[l [r E]]].
- by case/startsWithP: H => r E; exists [::], r.
- by case/IH: H => l [r ->]; exists (a :: l), r.
- case: l E => [|x l] E; first by left; apply/startsWithP; exists r.
  by right; apply/IH; exists l, r; move: E; rewrite cat_cons; case.
Qed.

End StringFacts.

(* --------------------------------------------------------------------- *)
(* The store                                                              *)
(* --------------------------------------------------------------------- *)

Section StoreFacts.

Implicit Types (state : EventsState) (w : Entropy) (i n d q : str).

Lemma ids_addEvent w n d state :
  ids (addEvent w n d state) = rcons (ids state) (generateId w).
Proof. by rewrite /ids /= map_rcons. Qed.

Lemma ids_deleteEvent i state :
  ids (deleteEvent i state) = [seq j <- ids state | j != i].
Proof. by rewrite /ids /= filter_map. Qed.

Lemma addEvent_uniq w n d state :
  generateId w \notin ids state -> uniq (ids state) ->
  uniq (ids (addEvent w n d state)).
Proof. by move=> fresh U; rewrite ids_addEvent rcons_uniq fresh. Qed.

Lemma deleteEvent_uniq i state :
  uniq (ids state) -> uniq (ids (deleteEvent i state)).
Proof. by move=> U; rewrite ids_deleteEvent filter_uniq. Qed.

Lemma deleteEvent_absent i state :
  i \notin ids state -> deleteEvent i state = state.
Proof.
case: state => es s; rewrite /deleteEvent /ids /= => Hi; congr mkState.
apply/all_filterP/allP => e He; apply: contraNneq Hi => <-.
exact: map_f.
Qed.

Lemma runFrom_rcons state acts a :
  runFrom state (rcons acts a) = step (runFrom state acts) a.
Proof. by rewrite /runFrom -cats1 foldl_cat. Qed.

Lemma generated_rcons acts a :
  generated (rcons acts a) =
  generated acts ++ (if a is AddEvent w _ _ then [:: generateId w] else [::]).
Proof. by rewrite /generated -cats1 pmap_cat /=; case: a. Qed.

(** The identifiers in the collection are those it started with and those
    generateId returned since, in that order. *)
Lemma ids_runFrom_subseq state acts :
  subseq (ids (runFrom state acts)) (ids state ++ generated acts).
Proof.
elim/last_ind: acts => [|acts a IH]; first by rewrite cats0.
rewrite runFrom_rcons generated_rcons catA; case: a => [w n d|i|q] /=.
- by rewrite ids_addEvent -cats1 cat_subseq.
- rewrite cats0 ids_deleteEvent.
  exact: subseq_trans (filter_subseq _ _) IH.
- by rewrite cats0.
Qed.

Lemma ids_run_subseq acts : subseq (ids (run acts)) (generated acts).
Proof. exact: ids_runFrom_subseq initialState acts. Qed.

(** Removing the entries equal to i from a duplicate-free sequence removes
    the one occurrence of i, if there is one. *)
Lemma filter_uniq_split (es : seq EventItem) i :
  uniq [seq id e | e <- es] -> i \in [seq id e | e <- es] ->
  exists l1 e l2,
    [/\ es = l1 ++ e :: l2, id e = i & [seq x <- es | id x != i] = l1 ++ l2].
Proof.
elim: es => [|e es IH] //=; rewrite in_cons => /andP [Hn U].
case: (altP (id e =P i)) => [E _|N].
  exists [::], e, es; split=> //=.
  apply/all_filterP/allP => x Hx; apply: contraNneq Hn => Ex.
  by rewrite E -Ex map_f.
rewrite eq_sym (negbTE N) /= => /(IH U) [l1 [x [l2 [-> Ex ->]]]].
by exists (e :: l1), x, l2.
Qed.

End StoreFacts.

(** C1. For every store state and every name and date with trim(name) and
    date non-empty, addEvent appends exactly one event: the size grows by
    one, the earlier events keep their values and positions, and the new
    last event carries the generated id, the trimmed name and the date as
    given; the search text is left alone. *)
Theorem addEvent_appends_one (w : Entropy) (n d : str) (state : EventsState) :
  truthy (trim n) -> truthy d ->
  let state' := addEvent w n d state in
  size (events state') = (size (events state)).+1 /\
  take (size (events state)) (events state') = events state /\
  (forall k, k < size (events state) ->
     nth noEvent (events state') k = nth noEvent (events state) k) /\
  nth noEvent (events state') (size (events state))
    = mkEvent (generateId w) (trim n) d /\
  name (last noEvent (events state')) = trim n /\
  date (last noEvent (events state')) = d /\
  search state' = search state.
Proof.
move=> _ _ /=; do ! split.
- by rewrite size_rcons.
- by rewrite -cats1 take_size_cat.
- by move=> k Hk; rewrite nth_rcons Hk.
- by rewrite nth_rcons ltnn eqxx.
- by rewrite last_rcons.
- by rewrite last_rcons.
Qed.

(** C4, amended. deleteEvent(id) removes exactly the entries whose id
    matches, as many as there are, and keeps the others in their order and
    the search text as it is; with an id that no event has it returns the
    state unchanged; a second deleteEvent with the same id changes
    nothing; and in a collection whose ids are pairwise distinct it
    removes at most one entry, the one with that id. *)
Theorem deleteEvent_removes_match (i : str) (state : EventsState) :
  let state' := deleteEvent i state in
  (forall e, (e \in events state') = (e \in events state) && (id e != i)) /\
  subseq (events state') (events state) /\
  search state' = search state /\
  (i \notin ids state -> state' = state) /\
  deleteEvent i state' = state' /\
  (uniq (ids state) -> size (events state) <= (size (events state')).+1) /\
  (uniq (ids state) -> i \in ids state ->
   exists l1 e l2,
     [/\ events state = l1 ++ e :: l2, id e = i & events state' = l1 ++ l2]) /\
  size (events state') + count (fun e => id e == i) (events state)
    = size (events state).
Proof.
do ! split.
- by move=> e; rewrite mem_filter andbC.
- exact: filter_subseq.
- exact: deleteEvent_absent.
- by rewrite /deleteEvent /= filter_id.
- move=> U; case Hi: (i \in ids state); last first.
    by rewrite deleteEvent_absent ?Hi.
  have [l1 [e [l2 [E1 _ E2]]]] := filter_uniq_split U Hi.
  by rewrite /= E2 E1 !size_cat /= addnS.
- exact: filter_uniq_split.
- rewrite /= size_filter addnC.
  exact: (count_predC (fun e => id e == i)).
Qed.

Lemma ids_run_no_delete acts :
  all (fun a => ~~ isDelete a) acts -> ids (run acts) = generated acts.
Proof.
elim/last_ind: acts => [|acts a IH] //.
rewrite all_rcons /run runFrom_rcons generated_rcons => /andP [Ha /IH E].
case: a Ha => [w n d|i|q] //= _; first by rewrite ids_addEvent -cats1 -E.
by rewrite cats0 -E.
Qed.

(** C6, amended. The ids in the collection are identifiers generateId
    returned, in the order it returned them, and all of them as long as
    nothing is deleted; the store does not compare a new id with the ids
    it holds. So along every run from the initial empty collection in
    which generateId returns a fresh identifier at each call the ids in
    the collection are pairwise distinct; the same holds for a run that
    continues from a reloaded collection with distinct ids, as long as
    the new identifiers are distinct from those and from one another. *)
Theorem ids_unique_in_reachable_states (acts : seq action) :
  (uniq (generated acts) ->
   uniq (ids (run acts)) /\ {subset ids (run acts) <= generated acts}) /\
  (forall state, uniq (ids state ++ generated acts) ->
   uniq (ids (runFrom state acts))) /\
  subseq (ids (run acts)) (generated acts) /\
  (all (fun a => ~~ isDelete a) acts -> ids (run acts) = generated acts).
Proof.
split=> [U|].
  split; first exact: subseq_uniq (ids_run_subseq acts) U.
  exact: mem_subseq (ids_run_subseq acts).
split=> [state U|].
  exact: subseq_uniq (ids_runFrom_subseq state acts) U.
split; first exact: ids_run_subseq.
exact: ids_run_no_delete.
Qed.

(* --------------------------------------------------------------------- *)
(* The date pattern                                                       *)
(* --------------------------------------------------------------------- *)

Lemma testISOPatternP v : reflect (matchesISOPattern v) (testISOPattern v).
Proof.
apply: (iffP idP); last first.
  case=> y1 [y2 [y3 [y4 [m1 [m2 [d1 [d2 [H ->]]]]]]]].
  rewrite /testISOPattern; move: H => /=.
  by do 8! [case: (isDigit _) => //=].
case: v => [|y1 [|y2 [|y3 [|y4 [|h1 [|m1 [|m2 [|h2 [|d1 [|d2 r]]]]]]]]]];
  rewrite /testISOPattern /=; try by do ? [case: ifP => //= _].
case D1: (isDigit y1) => //=; case D2: (isDigit y2) => //=.
case D3: (isDigit y3) => //=; case D4: (isDigit y4) => //=.
case E1: (h1 == 45%num) => //=.
case D5: (isDigit m1) => //=; case D6: (isDigit m2) => //=.
case E2: (h2 == 45%num) => //=.
case D7: (isDigit d1) => //=; case D8: (isDigit d2) => //=.
case: r => // _.
exists y1, y2, y3, y4, m1, m2, d1, d2; split.
  by rewrite /= D1 D2 D3 D4 D5 D6 D7 D8.
by rewrite (eqP E1) (eqP E2).
Qed.

Lemma isDigitP c : isDigit c -> (48 <= Z.of_N c <= 57)%Z.
Proof. by case/andP => /N.leb_le H1 /N.leb_le H2; lia. Qed.

(** One position of a comparison by code units: equal units pass on to the
    next position, different units decide. *)
Ltac decide_unit x y :=
  case: (N.compare_spec x y) => [->|?|?];
    [ | apply/Z.compare_lt_iff; lia | apply/Z.compare_gt_iff; lia ].

(** Between strings of the shape dddd-dd-dd, the order of the code units is
    the order of the calendar. *)
Lemma compareUnits_dateKey a b :
  matchesISOPattern a -> matchesISOPattern b ->
  compareUnits a b = (dateKey a ?= dateKey b)%Z.
Proof.
case=> y1 [y2 [y3 [y4 [m1 [m2 [d1 [d2 [/= Da ->]]]]]]]].
case=> z1 [z2 [z3 [z4 [n1 [n2 [e1 [e2 [/= Db ->]]]]]]]].
move: Da Db; do 8! [case/andP => /isDigitP ?]; move=> _.
do 8! [case/andP => /isDigitP ?]; move=> _.
rewrite /dateKey /yearOf /monthOf /dayOf /numOf /=; symmetry.
decide_unit y1 z1; decide_unit y2 z2; decide_unit y3 z3; decide_unit y4 z4.
decide_unit m1 n1; decide_unit m2 n2; decide_unit d1 e1; decide_unit d2 e2.
exact: Z.compare_refl.
Qed.

(* --------------------------------------------------------------------- *)
(* The derived view                                                       *)
(* --------------------------------------------------------------------- *)

Section ViewFacts.

Variable toLowerCase : str -> str.
Variable localeCompare : str -> str -> Z.

(** localeCompare is a consistent comparator: the sign flips when the
    arguments are swapped, and "not after" is transitive. *)
Hypothesis localeCompare_swap :
  forall a b, (localeCompare a b < 0 <-> 0 < localeCompare b a)%Z.
Hypothesis localeCompare_trans :
  forall a b c, (localeCompare a b <= 0 -> localeCompare b c <= 0 ->
                 localeCompare a c <= 0)%Z.
(** On two strings of the shape dddd-dd-dd every collation orders like the
    code units do. *)
Hypothesis localeCompare_iso :
  forall a b, testISOPattern a -> testISOPattern b ->
    (localeCompare a b ?= 0)%Z = compareUnits a b.
(** On ASCII strings toLowerCase maps A..Z to a..z and nothing else. *)
Hypothesis toLowerCase_ascii :
  forall s, all isAscii s -> toLowerCase s = lowerASCII s.

Local Notation leDate := (byDate localeCompare).
Local Notation view := (filteredEvents toLowerCase localeCompare).
Local Notation matches := (nameMatches toLowerCase).

Lemma localeCompare_refl a : localeCompare a a = 0%Z.
Proof. by have := localeCompare_swap a a; lia. Qed.

Lemma byDate_total : total leDate.
Proof.
move=> a b; apply/orP; rewrite /byDate.
have := localeCompare_swap (date a) (date b).
by case: Z.leb_spec => H; [left | right; apply/Z.leb_le; lia].
Qed.

Lemma byDate_trans : transitive leDate.
Proof.
move=> b a c /Z.leb_le Hab /Z.leb_le Hbc; apply/Z.leb_le.
exact: localeCompare_trans Hab Hbc.
Qed.

Lemma byDate_same_date a b : date a = date b -> leDate a b.
Proof. by rewrite /byDate => ->; rewrite localeCompare_refl. Qed.

Lemma sameRank_refl e : sameRank localeCompare (date e) e.
Proof. by rewrite /sameRank localeCompare_refl. Qed.

Lemma sameRank_le d a b :
  sameRank localeCompare d a -> sameRank localeCompare d b -> leDate a b.
Proof.
move=> /Z.eqb_eq Ha /Z.eqb_eq Hb; apply/Z.leb_le.
apply: (@localeCompare_trans _ d); first by lia.
by have := localeCompare_swap d (date b); have := localeCompare_swap (date b) d; lia.
Qed.

Lemma le_sameRank a b : leDate a b -> leDate b a -> sameRank localeCompare (date a) b.
Proof.
move=> /Z.leb_le Hab /Z.leb_le Hba; apply/Z.eqb_eq.
by have := localeCompare_swap (date b) (date a); lia.
Qed.

Lemma sorted_sameRank d s : all (sameRank localeCompare d) s -> sorted leDate s.
Proof.
case: s => [|a s] //= /andP [].
elim: s a => [|b s IH] a Ha //= /andP [Hb Hs].
by rewrite (sameRank_le Ha Hb) /=; apply: IH.
Qed.

Lemma sorted_same_date d s : all (fun e => date e == d) s -> sorted leDate s.
Proof.
move=> H; apply: (@sorted_sameRank d); apply: sub_all H => e /eqP <-.
exact: sameRank_refl.
Qed.

(** Stability of sort: a selection of the input that is in order already
    comes out of the sorted list as it was. *)
Lemma filter_sort_sorted (p : pred EventItem) s :
  sorted leDate (filter p s) -> filter p (sort leDate s) = filter p s.
Proof.
move=> S; rewrite (filter_sort byDate_total byDate_trans).
exact: (sorted_sort byDate_trans).
Qed.

Lemma sort_same_date d s :
  [seq e <- sort leDate s | date e == d] = [seq e <- s | date e == d].
Proof.
by apply: filter_sort_sorted; apply: (@sorted_same_date d); apply: filter_all.
Qed.

Lemma sort_sameRank d s :
  [seq e <- sort leDate s | sameRank localeCompare d e] =
  [seq e <- s | sameRank localeCompare d e].
Proof.
by apply: filter_sort_sorted; apply: (@sorted_sameRank d); apply: filter_all.
Qed.

Lemma head_le_mem x s y : sorted leDate (x :: s) -> y \in x :: s -> leDate x y.
Proof.
rewrite in_cons /= => P /orP [/eqP ->|Hy]; first exact: byDate_same_date.
by move/allP: (order_path_min byDate_trans P); apply.
Qed.

(** Two sequences in date order that hold the events of every rank in the
    same order are the same sequence. *)
Lemma sorted_ranks_eq t u :
  sorted leDate t -> sorted leDate u ->
  (forall d, [seq e <- t | sameRank localeCompare d e] =
             [seq e <- u | sameRank localeCompare d e]) ->
  t = u.
Proof.
elim: t u => [|x t IH] [|y u] // St Su H.
- by have := H (date y); rewrite /= sameRank_refl.
- by have := H (date x); rewrite /= sameRank_refl.
have Hx := H (date x); have Hy := H (date y).
have xu : x \in y :: u.
  have: x \in [seq e <- y :: u | sameRank localeCompare (date x) e].
    by rewrite -Hx /= sameRank_refl mem_head.
  by rewrite mem_filter => /andP [].
have yt : y \in x :: t.
  have: y \in [seq e <- x :: t | sameRank localeCompare (date y) e].
    by rewrite Hy /= sameRank_refl mem_head.
  by rewrite mem_filter => /andP [].
have Ryx := le_sameRank (head_le_mem St yt) (head_le_mem Su xu).
move: Hx; rewrite /= sameRank_refl Ryx => - [Exy _].
rewrite Exy; congr cons; apply: IH.
- exact: path_sorted St.
- exact: path_sorted Su.
- move=> d; have := H d; rewrite /= Exy.
  by case: (sameRank localeCompare d y) => // - [].
Qed.

(** Sorting is the only way to arrange a sequence in date order that keeps
    the events of every rank in their order: every stable sort computes
    sort leDate. *)
Lemma stable_sorted_unique s t :
  sorted leDate t ->
  (forall d, [seq e <- t | sameRank localeCompare d e] =
             [seq e <- s | sameRank localeCompare d e]) ->
  t = sort leDate s.
Proof.
move=> St H; apply: sorted_ranks_eq => //.
  exact: (sort_sorted byDate_total).
by move=> d; rewrite sort_sameRank.
Qed.

(** The view is the sorted list, filtered by the trimmed search text. *)
Lemma viewE es text :
  view es text = [seq e <- sort leDate es | matches (trim text) e].
Proof.
rewrite /filteredEvents /truthy negbK /nameMatches.
case: eqP => [->|] //.
by rewrite (eq_filter (a2 := predT)) ?filter_predT // => e; rewrite includes_nil.
Qed.

Lemma view_sorted es text : sorted leDate (view es text).
Proof.
rewrite viewE; apply: (sorted_filter byDate_trans).
exact: (sort_sorted byDate_total).
Qed.

Lemma view_perm es text :
  perm_eq (view es text) [seq e <- es | matches (trim text) e].
Proof.
rewrite viewE (filter_sort byDate_total byDate_trans).
by rewrite (perm_sort leDate).
Qed.

Lemma view_same_date es text d :
  [seq e <- view es text | date e == d] =
  [seq e <- [seq e <- es | matches (trim text) e] | date e == d].
Proof.
by rewrite viewE (filter_sort byDate_total byDate_trans) sort_same_date.
Qed.

Lemma toLowerCase_nil : toLowerCase [::] = [::].
Proof. by rewrite toLowerCase_ascii. Qed.

Lemma view_blank es text : trim text = [::] -> view es text = sort leDate es.
Proof.
move=> E; rewrite viewE E (eq_filter (a2 := predT)) ?filter_predT // => e.
by rewrite /nameMatches toLowerCase_nil includes_nil.
Qed.

(** Between dates of the shape dddd-dd-dd the comparator orders by the
    calendar. *)
Lemma byDate_calendar a b :
  matchesISOPattern (date a) -> matchesISOPattern (date b) ->
  leDate a b = (dateKey (date a) <=? dateKey (date b))%Z.
Proof.
move=> Ma Mb; rewrite /byDate /Z.leb.
by rewrite localeCompare_iso ?compareUnits_dateKey //; apply/testISOPatternP.
Qed.

Lemma view_order_kept es text a b :
  date a = date b -> subseq [:: a; b] (view es text) -> subseq [:: a; b] es.
Proof.
move=> Eab S.
have: subseq [:: a; b] [seq e <- view es text | date e == date a].
  by rewrite subseq_filter S /= Eab !eqxx.
rewrite view_same_date => S'.
apply: subseq_trans S' _.
exact: subseq_trans (filter_subseq _ _) (filter_subseq _ _).
Qed.

(** C2. For every list of events and every search text the derived view is
    in ascending date order and is an arrangement of the events the search
    selects (of all events when the trimmed search text is empty: the view
    is then the sorted list). The sort is stable: the events of one date
    come in the view in the order they have in the stored collection; and
    between dates of the shape yyyy-mm-dd ascending order is the order of
    the calendar. Adding B on 2025-01-01, then A on 2024-01-01, displays
    A before B. *)
Theorem view_sorted_by_date_stable (es : seq EventItem) (text : str) :
  sorted leDate (view es text) /\
  perm_eq (view es text) [seq e <- es | matches (trim text) e] /\
  (trim text = [::] ->
   view es text = sort leDate es /\ perm_eq (view es text) es) /\
  (forall d, [seq e <- view es text | date e == d] =
             [seq e <- [seq e <- es | matches (trim text) e] | date e == d]) /\
  (forall a b, date a = date b ->
     subseq [:: a; b] (view es text) -> subseq [:: a; b] es) /\
  (forall a b, matchesISOPattern (date a) -> matchesISOPattern (date b) ->
     leDate a b = (dateKey (date a) <=? dateKey (date b))%Z) /\
  (forall w1 w2,
     let state := addEvent w2 (js "A") (js "2024-01-01")
                    (addEvent w1 (js "B") (js "2025-01-01") initialState) in
     [seq name e | e <- view (events state) (search state)]
       = [:: js "A"; js "B"]).
Proof.
split; first exact: view_sorted.
split; first exact: view_perm.
split.
  by move=> E; rewrite view_blank //; split=> //; rewrite (perm_sort leDate).
split; first exact: view_same_date.
split; first exact: view_order_kept.
split; first exact: byDate_calendar.
move=> w1 w2.
by rewrite /= view_blank // /sort /= /byDate /Z.leb localeCompare_iso.
Qed.

Lemma mem_view es text e :
  (e \in view es text) = (e \in es) && matches (trim text) e.
Proof. by rewrite viewE mem_filter mem_sort andbC. Qed.

(** C3, amended. For every list of events and every search text the derived
    view holds, in sorted order, exactly the events whose lower-cased name
    contains the lower-cased trimmed search text as a substring; when the
    trimmed search text is empty that is the full sorted list. Of two
    events named Team Meeting and Launch Party the search text team
    selects Team Meeting alone. *)
Theorem view_filters_by_trimmed_search (es : seq EventItem) (text : str) :
  view es text = [seq e <- sort leDate es | matches (trim text) e] /\
  (forall e, e \in view es text <->
     e \in es /\
     exists l r, toLowerCase (name e) = l ++ toLowerCase (trim text) ++ r) /\
  (trim text = [::] -> view es text = sort leDate es) /\
  (forall i1 d1 i2 d2,
     let e1 := mkEvent i1 (js "Team Meeting") d1 in
     let e2 := mkEvent i2 (js "Launch Party") d2 in
     view [:: e1; e2] (js "team") = [:: e1] /\
     view [:: e2; e1] (js "team") = [:: e1]).
Proof.
split; first exact: viewE.
split.
  move=> e; rewrite mem_view; split.
    by case/andP=> He /includesP M.
  by case=> He M; rewrite He; apply/includesP.
split; first exact: view_blank.
move=> i1 d1 i2 d2 /=.
rewrite !viewE !(filter_sort byDate_total byDate_trans) /nameMatches /=.
by rewrite !toLowerCase_ascii.
Qed.

(** C10. The search text is trimmed before matching: a search text of
    white space alone yields the full sorted list, as the empty one does,
    and every search text yields the view its trimmed form yields. *)
Theorem search_text_is_trimmed (es : seq EventItem) (text : str) :
  (all isWhiteSpace text -> view es text = sort leDate es) /\
  view es [::] = sort leDate es /\
  view es text = view es (trim text).
Proof.
split; first by move=> /trim_all; apply: view_blank.
split; first exact: view_blank.
by rewrite !viewE trim_idem.
Qed.

(* Further properties of the view *)

Lemma includes_trans (s q2 q1 : str) :
  includes s q2 -> includes q2 q1 -> includes s q1.
Proof.
move=> /includesP [l [r ->]] /includesP [l' [r' ->]]; apply/includesP.
by exists (l ++ l'), (r' ++ r); rewrite -!catA.
Qed.

Lemma filter_subseq_imp (a1 a2 : pred EventItem) s :
  (forall e, a2 e -> a1 e) -> subseq (filter a2 s) (filter a1 s).
Proof.
move=> H; have -> : filter a2 s = filter a2 (filter a1 s).
  rewrite -filter_predI; apply: eq_filter => e /=.
  by case E: (a2 e) => //; rewrite (H _ E).
exact: filter_subseq.
Qed.

Lemma subseq_filter_mono (a : pred EventItem) s1 s2 :
  subseq s1 s2 -> subseq (filter a s1) (filter a s2).
Proof.
move=> S; rewrite subseq_filter filter_all /=.
exact: subseq_trans (filter_subseq _ _) S.
Qed.

(** X5. Deleting an event takes its rows out of the view and leaves the
    other rows as they were, in the same order. *)
Theorem view_after_deleteEvent i state :
  view (events (deleteEvent i state)) (search (deleteEvent i state))
  = [seq e <- view (events state) (search state) | id e != i].
Proof.
rewrite !viewE /= -(filter_sort byDate_total byDate_trans) -!filter_predI.
by apply: eq_filter => e /=; rewrite andbC.
Qed.

(** X6. Adding an event keeps the rows on display in their order: the old
    view is a subsequence of the new one, which gains the new event when
    its name matches the search text and nothing otherwise. *)
Theorem view_after_addEvent w n d state :
  let new := mkEvent (generateId w) (trim n) d in
  let v := view (events state) (search state) in
  let v' := view (events (addEvent w n d state)) (search (addEvent w n d state)) in
  subseq v v' /\
  perm_eq v' (if matches (trim (search state)) new then new :: v else v) /\
  size v' <= (size v).+1.
Proof.
move=> new v v'.
have P : perm_eq v' (if matches (trim (search state)) new then new :: v else v).
  rewrite /v' /v /= (permPl (view_perm _ _)) filter_rcons -/new.
  case: (matches _ new); last by rewrite perm_sym view_perm.
  by rewrite perm_rcons perm_cons perm_sym view_perm.
split; last split=> //; last first.
  by rewrite (perm_size P); case: (matches _ new).
rewrite /v /v' !viewE /=; apply: subseq_filter_mono.
apply: (subseq_sort byDate_total byDate_trans).
exact: subseq_rcons.
Qed.

(** X7. A search text whose lower-cased trimmed form contains that of
    another one displays a subsequence of what the other displays: making
    the search text more specific never adds or reorders rows. *)
Theorem narrower_search_shows_fewer es t1 t2 :
  includes (toLowerCase (trim t2)) (toLowerCase (trim t1)) ->
  subseq (view es t2) (view es t1).
Proof.
move=> H; rewrite !viewE; apply: filter_subseq_imp => e M.
exact: includes_trans M H.
Qed.

(** X8. The view shows stored events only, each as often as it is stored
    at most: it is never longer than the collection, it is empty for the
    empty collection, and when the stored ids are distinct so are the ids
    on display (the keys of the rendered rows). *)
Theorem view_shows_stored_events es text :
  let shown := filteredEvents toLowerCase localeCompare es text in
  {subset shown <= es} /\
  size shown <= size es /\
  filteredEvents toLowerCase localeCompare [::] text = [::] /\
  (uniq [seq id e | e <- es] -> uniq [seq id e | e <- shown]).
Proof.
move=> shown; rewrite /shown.
split; first by move=> e; rewrite mem_view => /andP [].
split.
  rewrite (perm_size (view_perm es text)) size_filter.
  exact: count_size.
split; first by rewrite viewE.
move=> U; rewrite (perm_uniq (perm_map id (view_perm es text))).
apply: subseq_uniq U; apply: map_subseq; exact: filter_subseq.
Qed.

(** X9. The view is the only arrangement of the selected events that is in
    date order and keeps the events of every rank in stored order: a list
    with these two properties is the view. *)
Theorem view_is_the_stable_arrangement es text t :
  sorted leDate t ->
  (forall d, [seq e <- t | sameRank localeCompare d e] =
             [seq e <- [seq e <- es | matches (trim text) e]
                   | sameRank localeCompare d e]) ->
  t = view es text.
Proof.
move=> St H; rewrite viewE (filter_sort byDate_total byDate_trans).
exact: stable_sorted_unique.
Qed.

(** X10. When no two different stored events have dates of the same rank,
    the view does not depend on the order in which the events were
    stored. *)
Theorem view_ignores_insertion_order es es' text :
  perm_eq es es' ->
  {in es &, forall a b, sameRank localeCompare (date a) b -> a = b} ->
  view es text = view es' text.
Proof.
move=> P noTies; rewrite !viewE; congr filter.
apply/perm_sort_inP => //.
- by move=> a b _ _; apply: byDate_total.
- by move=> b a c _ _ _; apply: byDate_trans.
- move=> a b Ha Hb /andP [Hab Hba].
  exact: noTies (le_sameRank Hab Hba).
Qed.

End ViewFacts.

(* --------------------------------------------------------------------- *)
(* Validation and date display                                            *)
(* --------------------------------------------------------------------- *)

Section FormFacts.

Variable dateParse : str -> option Z.
Variable toLocaleDateString : Z -> completion str.

(** A string of the shape dddd-dd-dd denotes a date only with a month from
    01 to 12 and a day from 01 to 31; every engine refuses the others. *)
Hypothesis dateParse_range :
  forall v, testISOPattern v -> isSome (dateParse v) ->
    (1 <= monthOf v <= 12)%Z /\ (1 <= dayOf v <= 31)%Z.

Local Notation dateRule := (validateDate dateParse).
Local Notation submit := (handleSubmit dateParse).
Local Notation display := (formatDate dateParse toLocaleDateString).


Lemma validateNameP n : validateName n = None <-> trim n <> [::] /\ size n <= 200.
Proof.
rewrite /validateName; case: eqP => [->|_]; first by split=> // - [].
rewrite ltnNge; case: (size n <= 200) => /=; last by split=> // - [].
case: (trim n) => [|c t] /=; first by split=> // - [].
by split.
Qed.

Lemma handleSubmit_blocked w p :
  validateName (formName (form p)) <> None \/
  dateRule (formDate (form p)) <> None ->
  store (submit w p) = store p.
Proof.
rewrite /handleSubmit.
case: (validateName _) => [en|]; case: (validateDate _ _) => [ed|] //=.
by case.
Qed.

Lemma handleSubmit_accepted w p :
  validateName (formName (form p)) = None ->
  dateRule (formDate (form p)) = None ->
  submit w p =
  mkPage (addEvent w (trim (formName (form p))) (formDate (form p)) (store p))
         defaultValues None None.
Proof.
move=> Hn Hd; rewrite /handleSubmit Hn Hd /= /onSubmit /truthy.
have [/eqP/negbTE -> _] := proj1 (validateNameP _) Hn.
by move: Hd; rewrite /validateDate; case: eqP.
Qed.


(** C9. formatDate never throws. It returns the stored string itself when
    the string does not parse to a date and when formatting throws, and
    the formatted date otherwise. *)
Theorem formatDate_falls_back (isoDate : str) :
  (exists r, display isoDate = Normal r) /\
  display isoDate =
    Normal (if dateParse isoDate is Some t then
              if toLocaleDateString t is Normal r then r else isoDate
            else isoDate).
Proof.
rewrite /formatDate; case: (dateParse isoDate) => [t|] /=.
  by case: (toLocaleDateString t) => [r|e] /=; split=> //; eexists.
by split=> //; eexists.
Qed.

(* Further properties of the form flow *)

Lemma size_trimStart (s : str) : size (trimStart s) <= size s.
Proof.
elim: s => [|c s IH] //=; case: (isWhiteSpace c) => //.
exact: leq_trans IH (leqnSn _).
Qed.

Lemma size_trimEnd (s : str) : size (trimEnd s) <= size s.
Proof.
elim: s => [|c s IH] //; rewrite trimEndE.
by case: (trimEnd s) IH => [|d r] //= _; case: (isWhiteSpace c).
Qed.

Lemma size_trim (s : str) : size (trim s) <= size s.
Proof. exact: leq_trans (size_trimEnd _) (size_trimStart _). Qed.

Lemma validateDate_accepts v :
  dateRule v = None -> v <> [::] /\ isValidISODate dateParse v.
Proof.
by rewrite /validateDate; case: eqP => // N; case: (isValidISODate _ _).
Qed.

Lemma wellFormed_submitted n d :
  validateName n = None -> dateRule d = None ->
  wellFormed dateParse (mkEvent [::] (trim (trim n)) d) /\
  forall i, wellFormed dateParse (mkEvent i (trim (trim n)) d).
Proof.
move=> /validateNameP [Hn Hs] /validateDate_accepts [_ Hd].
have W i : wellFormed dateParse (mkEvent i (trim (trim n)) d).
  rewrite /wellFormed /= !trim_idem eqxx Hd andbT /=.
  by rewrite (leq_trans (size_trim n) Hs) andbT; apply/eqP.
by split.
Qed.

Lemma wellFormed_step p a :
  all (wellFormed dateParse) (events (store p)) ->
  all (wellFormed dateParse) (events (store (pageStep dateParse p a))).
Proof.
case: a => [v|v|w|i|q] //= H.
- case En: (validateName (formName (form p))) => [m|]; last first.
    case Ed: (dateRule (formDate (form p))) => [m|]; last first.
      rewrite handleSubmit_accepted //= all_rcons H andbT.
      by have [_] := wellFormed_submitted En Ed; apply.
    by rewrite handleSubmit_blocked //; right; rewrite Ed.
  by rewrite handleSubmit_blocked //; left; rewrite En.
- by apply/allP => e; rewrite mem_filter => /andP [_ He]; apply: (allP H).
Qed.

(** X11. onSubmit checks its data itself: with a name that is blank after
    trimming or with an empty date it changes nothing at all; otherwise it
    appends one event whose name is the trimmed name (trimming happens
    twice, in onSubmit and in addEvent, and stores the same name as
    trimming once) and resets the form and its errors. *)
Theorem onSubmit_guards_and_resets w data p :
  (trim (formName data) = [::] \/ formDate data = [::] ->
   onSubmit w data p = p) /\
  (trim (formName data) <> [::] -> formDate data <> [::] ->
   onSubmit w data p =
   mkPage (mkState (rcons (events (store p))
                          (mkEvent (generateId w) (trim (formName data))
                                   (formDate data)))
                   (search (store p)))
          defaultValues None None).
Proof.
rewrite /onSubmit /truthy !negbK; split.
  by case=> ->; rewrite ?eqxx ?orbT.
move=> /eqP/negbTE -> /eqP/negbTE -> /=.
by rewrite /addEvent trim_idem.
Qed.

(** X12. The gate on the submit button is weaker than the field rules:
    values the rules accept always enable the button, and whenever the
    button is disabled a submit would leave the store as it is. *)
Theorem canSubmit_weaker_than_rules w p :
  (validateName (formName (form p)) = None ->
   dateRule (formDate (form p)) = None -> canSubmit (form p)) /\
  (~~ canSubmit (form p) -> store (submit w p) = store p).
Proof.
have A : validateName (formName (form p)) = None ->
         dateRule (formDate (form p)) = None -> canSubmit (form p).
  move=> /validateNameP [/eqP Hn _] /validateDate_accepts [/eqP Hd _].
  by rewrite /canSubmit /truthy Hn Hd.
split=> // N; apply: handleSubmit_blocked.
case En: (validateName _) => [m|]; first by left.
case Ed: (dateRule _) => [m|]; first by right.
by rewrite (A En Ed) in N.
Qed.

(** X13. Whatever the user types, submits, deletes and searches, starting
    from the empty page, every stored event has a non-empty trimmed name
    of at most 200 code units and a date of the shape yyyy-mm-dd that
    parses. *)
Theorem form_flow_stores_well_formed_events (acts : seq pageAction) :
  forall e, e \in events (store (pageRun dateParse acts)) ->
    name e <> [::] /\ trim (name e) = name e /\ size (name e) <= 200 /\
    matchesISOPattern (date e) /\ dateParse (date e) <> None.
Proof.
have: all (wellFormed dateParse) (events (store (pageRun dateParse acts))).
  elim/last_ind: acts => [|acts a IH] //.
  by rewrite /pageRun -cats1 foldl_cat /=; apply: wellFormed_step.
move/allP => H e /H /and4P [/eqP Hn /eqP Ht Hs].
rewrite /isValidISODate; case: testISOPatternP => //= M Hd.
by do ! split=> //; case: (dateParse _) Hd.
Qed.

(** X14. A submit that the rules accept appends exactly one event with the
    generated id, the trimmed name and the date, keeps the search text,
    and empties the form: the button is disabled again and a second
    submit without new input adds nothing. *)
Theorem accepted_submit_adds_once w w' p :
  validateName (formName (form p)) = None ->
  dateRule (formDate (form p)) = None ->
  let p' := submit w p in
  events (store p') =
    rcons (events (store p))
          (mkEvent (generateId w) (trim (formName (form p))) (formDate (form p))) /\
  search (store p') = search (store p) /\
  form p' = defaultValues /\
  (nameError p' = None /\ dateError p' = None) /\
  canSubmit (form p') = false /\
  store (submit w' p') = store p'.
Proof.
move=> Hn Hd p'; rewrite /p' handleSubmit_accepted //=.
by rewrite trim_idem.
Qed.

Lemma validateDate_invalid v :
  (if isValidISODate dateParse v then None else Some "Invalid date"%string)
    = Some "Invalid date"%string <->
  ~ (matchesISOPattern v /\ dateParse v <> None).
Proof.
rewrite /isValidISODate.
case: testISOPatternP => [M|M] /=; last by split=> // _ [/M].
case: (dateParse v) => [t|] /=; split=> //.
- by move=> H; case: H; split.
- by move=> _ [_]; apply.
Qed.

(** X15. Which message a field shows. Name: the required message exactly
    for the empty value, the length message exactly for more than 200
    code units (white space included), the cannot-be-empty message exactly
    for a non-empty value of at most 200 code units of white space. Date:
    the required message exactly for the empty value, Invalid date exactly
    for a non-empty value that is not of the shape yyyy-mm-dd or does not
    parse. *)
Theorem field_error_messages v :
  (validateName v = Some "Event name is required"%string <-> v = [::]) /\
  (validateName v = Some "Max 200 characters"%string <-> 200 < size v) /\
  (validateName v = Some "Event name cannot be empty"%string <->
   [/\ v <> [::], size v <= 200 & all isWhiteSpace v]) /\
  (dateRule v = Some "Date is required"%string <-> v = [::]) /\
  (dateRule v = Some "Invalid date"%string <->
   v <> [::] /\ ~ (matchesISOPattern v /\ dateParse v <> None)).
Proof.
have T : (size (trim v) != 0) = ~~ all isWhiteSpace v.
  rewrite size_eq0; congr negb.
  by apply/eqP/idP; [apply: trim_nil | apply: trim_all].
have D : (dateRule v = Some "Date is required"%string <-> v = [::]) /\
         (dateRule v = Some "Invalid date"%string <->
          v <> [::] /\ ~ (matchesISOPattern v /\ dateParse v <> None)).
  rewrite /validateDate; case: eqP => [->|N].
    by split; split=> // - [].
  split; first by case: (isValidISODate _ _); split.
  have [A B] := validateDate_invalid v.
  by split=> [/A|[_ /B]].
suff Nm :
  (validateName v = Some "Event name is required"%string <-> v = [::]) /\
  (validateName v = Some "Max 200 characters"%string <-> 200 < size v) /\
  (validateName v = Some "Event name cannot be empty"%string <->
   [/\ v <> [::], size v <= 200 & all isWhiteSpace v]).
  by case: Nm => ? [? ?]; case: D.
rewrite /validateName T ltnNge.
case: eqP => [->|N] /=; first by do ! split=> //; case.
case: (size v <= 200) => /=; last by do ! split=> //; case.
case: (all isWhiteSpace v) => /=; first by do ! split.
by do ! split=> //; case.
Qed.

End FormFacts.

(* --------------------------------------------------------------------- *)
(* Persistence                                                            *)
(* --------------------------------------------------------------------- *)

Lemma eventOfJsonK e : eventOfJson (jsonOfEvent e) = Some e.
Proof. by case: e. Qed.

Lemma eventsOfJson_cons j rest :
  eventsOfJson (j :: rest) =
  if eventOfJson j is Some e then
    (if eventsOfJson rest is Some es then Some (e :: es) else None)
  else None.
Proof. by []. Qed.

Lemma eventsOfJsonK es : eventsOfJson [seq jsonOfEvent e | e <- es] = Some es.
Proof.
by elim: es => [|e es IH] //; rewrite map_cons eventsOfJson_cons eventOfJsonK IH.
Qed.

Lemma getItem_setItem k v stg : getItem k (setItem k v stg) = Some v.
Proof. by rewrite /getItem /setItem String.eqb_refl. Qed.

Lemma setItem_twice k v stg : setItem k v (setItem k v stg) =1 setItem k v stg.
Proof. by move=> k'; rewrite /setItem; case: String.eqb. Qed.

Lemma rehydrate_envelope state current stg :
  rehydrate (setItem LOCAL_STORAGE_KEY (envelope state) stg) current
  = mkState (events state) (search current).
Proof. by rewrite /rehydrate getItem_setItem /= eventsOfJsonK. Qed.

(** Nothing stored, or an envelope of another version: the state stays. *)
Lemma rehydrate_absent current : rehydrate (fun _ => None) current = current.
Proof. by []. Qed.

Lemma rehydrate_other_version state current stg v :
  v <> version ->
  rehydrate (setItem LOCAL_STORAGE_KEY
               (JObject [:: ("state"%string, partialize state);
                            ("version"%string, JNumber v)]) stg) current
  = current.
Proof.
by move=> /Z.eqb_neq N; rewrite /rehydrate getItem_setItem /= N.
Qed.

(** C7. Persisting a collection and reloading it gives the same list of
    events back, each with its id, name and date, in the same order: the
    stored array decodes to the list it encodes, and rehydrating from the
    storage that any set has written restores the events of that state. *)
Theorem persist_rehydrate_roundtrip (state : EventsState) :
  eventsOfJson [seq jsonOfEvent e | e <- events state] = Some (events state) /\
  (forall stg current,
     events (rehydrate (setItem LOCAL_STORAGE_KEY (envelope state) stg) current)
     = events state) /\
  (forall f stg,
     let w := persistSet f (state, stg) in
     events (rehydrate w.2 initialState) = events w.1).
Proof.
split; first exact: eventsOfJsonK.
by split=> [stg current|f stg] /=; rewrite rehydrate_envelope.
Qed.

(** C8. What is stored is { state: { events }, version: 1 }: the state
    object has the events field and no search field, the envelope is a
    function of the events alone, and setSearch stores the envelope that
    was stored already. *)
Theorem only_events_are_persisted (state : EventsState) (q : str) :
  envelope state =
    JObject [:: ("state"%string,
                 JObject [:: ("events"%string,
                              JArray [seq jsonOfEvent e | e <- events state])]);
                ("version"%string, JNumber 1)] /\
  field "search" (partialize state) = None /\
  envelope (setSearch q state) = envelope state /\
  envelope (mkState (events state) q) = envelope state /\
  (forall stg,
     let stored := setItem LOCAL_STORAGE_KEY (envelope state) stg in
     (persistSet (setSearch q) (state, stored)).2 =1 stored).
Proof.
do ! split=> //.
by move=> stg stored k; rewrite /persistSet /= /stored; apply: setItem_twice.
Qed.

(* --------------------------------------------------------------------- *)
(* The reference engine meets what the sections above assume              *)
(* --------------------------------------------------------------------- *)

Lemma compareUnits_swap a b :
  compareUnits b a = CompOpp (compareUnits a b).
Proof.
elim: a b => [|x a IH] [|y b] //=.
by rewrite (N.compare_antisym x y) IH; case: (x ?= y)%num.
Qed.

Lemma compareUnits_trans a b c :
  compareUnits a b <> Gt -> compareUnits b c <> Gt ->
  compareUnits a c <> Gt.
Proof.
elim: a b c => [|x a IH] [|y b] [|z c] //=.
case: (N.compare_spec x y) => [->|Hxy|Hxy]; last by case.
- by case: (N.compare_spec y z) => [_|_|_] //; exact: IH.
- move=> _; case: (N.compare_spec y z) => [Hyz|Hyz|Hyz]; last by case.
  + by rewrite -Hyz (proj2 (N.compare_lt_iff _ _) Hxy).
  + by rewrite (proj2 (N.compare_lt_iff x z)) //; lia.
Qed.

Lemma Ref_localeCompare_swap a b :
  (Ref.localeCompare a b < 0 <-> 0 < Ref.localeCompare b a)%Z.
Proof.
rewrite /Ref.localeCompare (compareUnits_swap a b).
by case: (compareUnits a b).
Qed.

Lemma Ref_localeCompare_trans a b c :
  (Ref.localeCompare a b <= 0 -> Ref.localeCompare b c <= 0 ->
   Ref.localeCompare a c <= 0)%Z.
Proof.
rewrite /Ref.localeCompare => Hab Hbc.
have := @compareUnits_trans a b c.
by move: Hab Hbc; do 3! [case: (compareUnits _ _) => //=]; move=> _ _ [].
Qed.

Lemma Ref_localeCompare_iso a b :
  testISOPattern a -> testISOPattern b ->
  (Ref.localeCompare a b ?= 0)%Z = compareUnits a b.
Proof. by move=> _ _; rewrite /Ref.localeCompare; case: (compareUnits a b). Qed.

Lemma Ref_toLowerCase_ascii s : all isAscii s -> Ref.toLowerCase s = lowerASCII s.
Proof. by []. Qed.



Example formatDate_on_reference_engine :
  formatDate Ref.dateParse Ref.toLocaleDateString (js "2025-01-05")
    = Normal (js "Jan 05, 2025") /\
  formatDate Ref.dateParse Ref.toLocaleDateString (js "2025-13-40")
    = Normal (js "2025-13-40") /\
  formatDate Ref.dateParse (fun _ => Throw RangeError) (js "2025-01-05")
    = Normal (js "2025-01-05").
Proof. by []. Qed.

(* --------------------------------------------------------------------- *)
(* Instances on the reference engine                                      *)
(* --------------------------------------------------------------------- *)

Lemma addEvent_appends_one_witness :
  let w := mkEntropy (Some (js "7f9c")) [::] [::] in
  let state := mkState [:: mkEvent (js "a1") (js "Launch Party") (js "2025-04-01")] [::] in
  let state' := addEvent w (js "  Team Meeting ") (js "2025-03-01") state in
  truthy (trim (js "  Team Meeting ")) /\ truthy (js "2025-03-01") /\
  size (events state') = 2 /\
  name (last noEvent (events state')) = js "Team Meeting".
Proof.
move=> w state state'.
have [H1 [_ [_ [_ [H5 _]]]]] :=
  @addEvent_appends_one w (js "  Team Meeting ") (js "2025-03-01") state isT isT.
by split; [|split; [|split; [exact: H1 | exact: H5]]].
Defined.

Lemma deleteEvent_removes_match_witness :
  let e1 := mkEvent (js "a1") (js "Launch Party") (js "2025-04-01") in
  let e2 := mkEvent (js "b2") (js "Team Meeting") (js "2025-03-01") in
  let state := mkState [:: e1; e2] (js "team") in
  uniq (ids state) /\ js "a1" \in ids state /\ js "zz" \notin ids state /\
  deleteEvent (js "zz") state = state /\
  size (events state) <= (size (events (deleteEvent (js "a1") state))).+1 /\
  exists l1 e l2,
    [/\ events state = l1 ++ e :: l2, id e = js "a1"
      & events (deleteEvent (js "a1") state) = l1 ++ l2].
Proof.
move=> e1 e2 state.
have [_ [_ [_ [_ [_ [H6 [H7 _]]]]]]] := deleteEvent_removes_match (js "a1") state.
have [_ [_ [_ [H4 _]]]] := deleteEvent_removes_match (js "zz") state.
by split; [|split; [|split; [|split; [exact: H4 | split; [exact: H6 | exact: H7]]]]].
Defined.

Lemma ids_unique_in_reachable_states_witness :
  let w1 := mkEntropy (Some (js "7f9c")) [::] [::] in
  let w2 := mkEntropy None (js "1735689600000") (js "0.4fzyo82mvyr") in
  let acts := [:: AddEvent w1 (js "B") (js "2025-01-01");
                  AddEvent w2 (js "A") (js "2024-01-01");
                  SetSearch (js "a");
                  DeleteEvent (js "7f9c")] in
  uniq (generated acts) /\
  ids (run acts) = [:: js "1735689600000_4fzyo82m"] /\
  uniq (ids (run acts)).
Proof.
move=> w1 w2 acts.
have [H _] := ids_unique_in_reachable_states acts.
have [U _] := H isT.
by split; [|split; [|exact: U]].
Defined.

Lemma view_sorted_by_date_stable_witness :
  let e1 := mkEvent (js "e1") (js "Team Meeting") (js "2025-03-01") in
  let e2 := mkEvent (js "e2") (js "Launch Party") (js "2025-03-01") in
  let e3 := mkEvent (js "e3") (js "Retro") (js "2024-12-24") in
  let es := [:: e1; e2; e3] in
  let v := filteredEvents Ref.toLowerCase Ref.localeCompare es (js "  ") in
  trim (js "  ") = [::] /\ date e1 = date e2 /\ subseq [:: e1; e2] v /\
  v = [:: e3; e1; e2] /\
  sorted (byDate Ref.localeCompare) v /\
  v = sort (byDate Ref.localeCompare) es /\
  subseq [:: e1; e2] es /\
  byDate Ref.localeCompare e3 e1 = (20241224 <=? 20250301)%Z.
Proof.
move=> e1 e2 e3 es v.
have [H1 [_ [H3 [_ [H5 [H6 _]]]]]] :=
  view_sorted_by_date_stable Ref_localeCompare_swap Ref_localeCompare_trans
    Ref_localeCompare_iso Ref_toLowerCase_ascii es (js "  ").
have [H3a _] := H3 (erefl _).
have H5a := @H5 e1 e2 (erefl _) isT.
have M3 : matchesISOPattern (date e3) by apply/testISOPatternP.
have M1 : matchesISOPattern (date e1) by apply/testISOPatternP.
have H6a := @H6 e3 e1 M3 M1.
by split; [|split; [|split; [|split; [|split; [exact: H1 | split;
     [exact: H3a | split; [exact: H5a | exact: H6a]]]]]]].
Defined.

Lemma view_filters_by_trimmed_search_witness :
  let e1 := mkEvent (js "e1") (js "Team Meeting") (js "2025-03-01") in
  let e2 := mkEvent (js "e2") (js "Launch Party") (js "2025-03-01") in
  let es := [:: e1; e2] in
  let v := filteredEvents Ref.toLowerCase Ref.localeCompare in
  e1 \in v es (js " TEAM ") /\
  (e1 \in es /\
   exists l r, Ref.toLowerCase (name e1) = l ++ Ref.toLowerCase (trim (js " TEAM ")) ++ r) /\
  trim (js "  ") = [::] /\
  v es (js "  ") = sort (byDate Ref.localeCompare) es.
Proof.
move=> e1 e2 es v.
have [_ [H2 _]] :=
  view_filters_by_trimmed_search Ref_localeCompare_swap Ref_localeCompare_trans
    Ref_toLowerCase_ascii es (js " TEAM ").
have [_ [_ [H3 _]]] :=
  view_filters_by_trimmed_search Ref_localeCompare_swap Ref_localeCompare_trans
    Ref_toLowerCase_ascii es (js "  ").
have [H2a _] := H2 e1.
by split; [|split; [exact: (H2a isT) | split; [|exact: (H3 (erefl _))]]].
Defined.

Lemma search_text_is_trimmed_witness :
  let e1 := mkEvent (js "e1") (js "Team Meeting") (js "2025-03-01") in
  let e2 := mkEvent (js "e2") (js "Launch Party") (js "2025-02-01") in
  let es := [:: e1; e2] in
  all isWhiteSpace (js "   ") /\
  filteredEvents Ref.toLowerCase Ref.localeCompare es (js "   ")
    = sort (byDate Ref.localeCompare) es.
Proof.
move=> e1 e2 es.
have [H _] := search_text_is_trimmed Ref.localeCompare Ref_toLowerCase_ascii es (js "   ").
by split; [|exact: (H isT)].
Defined.


(** The lenient engine meets what the form section assumes of an engine. *)
Lemma Lenient_dateParse_range v :
  testISOPattern v -> isSome (Lenient.dateParse v) ->
  (1 <= monthOf v <= 12)%Z /\ (1 <= dayOf v <= 31)%Z.
Proof.
rewrite /Lenient.dateParse => ->.
case: and4P => // - [/Z.leb_le H1 /Z.leb_le H2 /Z.leb_le H3 /Z.leb_le H4] _.
by lia.
Qed.

(** C4 as stated fails on a collection in which an id occurs twice: after
    three addEvent calls of which the first and the third read the same
    millisecond and the same leading random characters (no
    crypto.randomUUID), deleteEvent with that id removes two of the three
    events. *)
Lemma deleteEvent_duplicate_id_counterexample :
  let w1 := mkEntropy None (js "1735689600000") (js "0.4fzyo82mvyr") in
  let w2 := mkEntropy None (js "1735689600001") (js "0.9k2x7relq0c") in
  let w3 := mkEntropy None (js "1735689600000") (js "0.4fzyo82mzzz") in
  let state := run [:: AddEvent w1 (js "A") (js "2025-01-01");
                       AddEvent w2 (js "B") (js "2025-01-02");
                       AddEvent w3 (js "C") (js "2025-01-03")] in
  let i := js "1735689600000_4fzyo82m" in
  ids state = [:: i; js "1735689600001_9k2x7rel"; i] /\
  size (events state) = 3 /\
  events (deleteEvent i state)
    = [:: mkEvent (js "1735689600001_9k2x7rel") (js "B") (js "2025-01-02")] /\
  ~ (size (events state) <= (size (events (deleteEvent i state))).+1) /\
  ~ (exists l1 e l2, events state = l1 ++ e :: l2 /\
                     events (deleteEvent i state) = l1 ++ l2).
Proof.
move=> w1 w2 w3 state i; do ! split=> //.
case=> l1 [e [l2 [E1 E2]]].
have: size (events state) = (size (events (deleteEvent i state))).+1.
  by rewrite E1 E2 !size_cat /= addnS.
by [].
Qed.

(** C6 as stated fails when generateId repeats itself: without
    crypto.randomUUID, two addEvent calls that read the same millisecond
    and the same leading random characters store two events under one
    id. *)
Lemma ids_collide_counterexample :
  let w1 := mkEntropy None (js "1735689600000") (js "0.4fzyo82mvyr") in
  let w2 := mkEntropy None (js "1735689600000") (js "0.4fzyo82mzzz") in
  let acts := [:: AddEvent w1 (js "A") (js "2025-01-01");
                  AddEvent w2 (js "B") (js "2025-01-02")] in
  events (run acts)
    = [:: mkEvent (js "1735689600000_4fzyo82m") (js "A") (js "2025-01-01");
          mkEvent (js "1735689600000_4fzyo82m") (js "B") (js "2025-01-02")] /\
  ~~ uniq (ids (run acts)).
Proof. by []. Qed.


(** C3 as stated fails on a search text with a leading space: " team"
    is non-empty and displays Team Meeting, whose name does not contain
    " team" in any letter case. *)
Lemma untrimmed_search_counterexample :
  let e1 := mkEvent (js "e1") (js "Team Meeting") (js "2025-03-01") in
  let e2 := mkEvent (js "e2") (js "Launch Party") (js "2025-04-01") in
  let es := [:: e1; e2] in
  let text := js " team" in
  text <> [::] /\
  filteredEvents Ref.toLowerCase Ref.localeCompare es text = [:: e1] /\
  [seq e <- sort (byDate Ref.localeCompare) es | nameMatches Ref.toLowerCase text e]
    = [::] /\
  ~ (forall e, e \in filteredEvents Ref.toLowerCase Ref.localeCompare es text ->
               nameMatches Ref.toLowerCase text e).
Proof.
move=> e1 e2 es text; do ! split=> //.
by move/(_ e1 isT).
Qed.

(* ===================================================================== *)
(* Further properties of the store, the view and the form                 *)
(* ===================================================================== *)

(* --------------------------------------------------------------------- *)
(* Identifiers and store operations                                       *)
(* --------------------------------------------------------------------- *)

Section StoreLaws.

Implicit Types (state : EventsState) (w : Entropy) (i j n d q : str).




Lemma filter_ids_absent (es : seq EventItem) i :
  i \notin [seq id e | e <- es] -> [seq e <- es | id e != i] = es.
Proof.
move=> Hi; apply/all_filterP/allP => e He; apply: contraNneq Hi => <-.
exact: map_f.
Qed.

Lemma events_trimmed_step state a :
  all (fun e => trim (name e) == name e) (events state) ->
  all (fun e => trim (name e) == name e) (events (step state a)).
Proof.
case: a => [w n d|i|q] //= H.
- by rewrite all_rcons /= trim_idem eqxx.
- by apply/allP => e; rewrite mem_filter => /andP [_ He]; apply: (allP H).
Qed.


(** X2. Deleting the id that addEvent has just generated gives back the
    state from before addEvent, provided that id was not in use. *)
Theorem deleteEvent_undoes_addEvent w n d state :
  generateId w \notin ids state ->
  deleteEvent (generateId w) (addEvent w n d state) = state.
Proof.
case: state => es s; rewrite /deleteEvent /addEvent /ids /= => fresh.
by rewrite filter_rcons /= eqxx /= filter_ids_absent.
Qed.

(** X3. Store operations on different things commute: two deletions in
    either order, a deletion of another id before or after an addition,
    and setSearch with both; setSearch never changes the events. *)
Theorem store_operations_commute w n d i j q state :
  deleteEvent i (deleteEvent j state) = deleteEvent j (deleteEvent i state) /\
  (i != generateId w ->
   deleteEvent i (addEvent w n d state) = addEvent w n d (deleteEvent i state)) /\
  setSearch q (addEvent w n d state) = addEvent w n d (setSearch q state) /\
  setSearch q (deleteEvent i state) = deleteEvent i (setSearch q state) /\
  events (setSearch q state) = events state.
Proof.
split; first by rewrite /deleteEvent /= -!filter_predI; congr mkState;
  apply: eq_filter => e /=; rewrite andbC.
split=> // N.
by rewrite /deleteEvent /addEvent /= filter_rcons /= eq_sym N.
Qed.

(** X4. In every state reached from the empty collection, every stored name
    is trimmed: trimming it again changes nothing; and the collection never
    holds more events than addEvent was called. *)
Theorem stored_names_are_trimmed (acts : seq action) :
  (forall e, e \in events (run acts) -> trim (name e) = name e) /\
  size (events (run acts)) <= size (generated acts).
Proof.
split; last by rewrite -(size_map id) -/(ids _); apply/size_subseq/ids_run_subseq.
have: all (fun e => trim (name e) == name e) (events (run acts)).
  elim/last_ind: acts => [|acts a IH] //.
  by rewrite /run runFrom_rcons; apply: events_trimmed_step.
by move/allP => H e /H /eqP.
Qed.

End StoreLaws.

(* --------------------------------------------------------------------- *)
(* The rendered list                                                      *)
(* --------------------------------------------------------------------- *)

Section RenderFacts.

Variable toLowerCase : str -> str.
Variable localeCompare : str -> str -> Z.
Variable dateParse : str -> option Z.
Variable toLocaleDateString : Z -> completion str.

Local Notation view := (filteredEvents toLowerCase localeCompare).
Local Notation rendered :=
  (renderList toLowerCase localeCompare dateParse toLocaleDateString).
Local Notation matches := (nameMatches toLowerCase).

Lemma size_view es text :
  size (view es text) = count (matches (trim text)) es.
Proof. by rewrite viewE size_filter count_sort. Qed.

Lemma formatDate_normal isoDate :
  isNormal (formatDate dateParse toLocaleDateString isoDate).
Proof.
rewrite /formatDate; case: (dateParse isoDate) => [t|] //=.
by case: (toLocaleDateString t).
Qed.

(** X16. The list shows "No events yet." exactly when no stored event
    matches the trimmed search text, so also over a collection that is not
    empty; otherwise it shows one row per matching stored event, keyed by
    the ids of the view in its order, and every date cell is a value:
    rendering a row never throws, whatever date string is stored. *)
Theorem rendered_list_rows state :
  (rendered state = NoEventsYet <->
   forall e, e \in events state -> ~~ matches (trim (search state)) e) /\
  (forall rows, rendered state = Rows rows ->
     [seq rowKey r | r <- rows]
       = [seq id e | e <- view (events state) (search state)] /\
     [seq rowName r | r <- rows]
       = [seq name e | e <- view (events state) (search state)] /\
     size rows = count (matches (trim (search state))) (events state) /\
     0 < size rows /\
     all (fun r => isNormal (rowDate r)) rows).
Proof.
rewrite /renderList size_view -size_view; split.
  rewrite size_view; case: eqP => [E|N]; split=> //.
  - by move=> _ e He; move/eqP: E; rewrite -leqn0 leqNgt -has_count => /hasPn; apply.
  - move=> H; case: N; apply/eqP; rewrite -leqn0 leqNgt -has_count.
    by apply/hasPn.
move=> rows; case: eqP => // /eqP N [<-].
rewrite -!map_comp size_map size_view lt0n -size_view N; do ! split=> //.
by rewrite all_map; apply/allP => e _ /=; apply: formatDate_normal.
Qed.

End RenderFacts.

(* --------------------------------------------------------------------- *)
(* Sessions on the persisted store                                        *)
(* --------------------------------------------------------------------- *)

Lemma persistedRun_rcons acts a w :
  persistedRun (rcons acts a) w
  = persistSet (fun state => step state a) (persistedRun acts w).
Proof. by rewrite /persistedRun -cats1 foldl_cat. Qed.

Lemma persistedRun_state acts state stg :
  (persistedRun acts (state, stg)).1 = runFrom state acts.
Proof.
elim/last_ind: acts => [|acts a IH] //.
by rewrite persistedRun_rcons runFrom_rcons /= IH.
Qed.

Lemma persistedRun_other_keys acts state stg k :
  String.eqb k LOCAL_STORAGE_KEY = false ->
  (persistedRun acts (state, stg)).2 k = stg k.
Proof.
move=> N; elim/last_ind: acts => [|acts a IH] //.
by rewrite persistedRun_rcons /= /setItem N.
Qed.

(** X17. After a session of one or more store operations, local storage
    holds under the key the envelope of the state the session ended in and
    is unchanged under every other key; a reload into a fresh store gets
    the events of that state back, with an empty search text. *)
Theorem persisted_session_reloads acts state stg :
  acts <> [::] ->
  let w := persistedRun acts (state, stg) in
  w.1 = runFrom state acts /\
  getItem LOCAL_STORAGE_KEY w.2 = Some (envelope w.1) /\
  (forall k, String.eqb k LOCAL_STORAGE_KEY = false -> w.2 k = stg k) /\
  rehydrate w.2 initialState = mkState (events w.1) [::].
Proof.
move=> N w; split; first exact: persistedRun_state.
have S : getItem LOCAL_STORAGE_KEY w.2 = Some (envelope w.1).
  rewrite /w; case/lastP: acts N {w} => [|acts a] // _.
  by rewrite persistedRun_rcons /= getItem_setItem.
split=> //; split; first by move=> k; apply: persistedRun_other_keys.
by rewrite /rehydrate S /= eventsOfJsonK.
Qed.

(* --------------------------------------------------------------------- *)
(* Instances of the further properties                                    *)
(* --------------------------------------------------------------------- *)


Lemma deleteEvent_undoes_addEvent_witness :
  let w := mkEntropy (Some (js "7f9c")) [::] [::] in
  let state := mkState [:: mkEvent (js "a1") (js "Launch Party") (js "2025-04-01")]
                       (js "la") in
  generateId w \notin ids state /\
  deleteEvent (generateId w) (addEvent w (js "Retro") (js "2025-05-01") state)
    = state.
Proof.
move=> w state.
by split; [|exact: (@deleteEvent_undoes_addEvent w (js "Retro") (js "2025-05-01")
                      state isT)].
Defined.

Lemma store_operations_commute_witness :
  let w := mkEntropy (Some (js "7f9c")) [::] [::] in
  let state := mkState [:: mkEvent (js "a1") (js "Launch Party") (js "2025-04-01")]
                       [::] in
  js "a1" != generateId w /\
  deleteEvent (js "a1") (addEvent w (js "Retro") (js "2025-05-01") state)
    = addEvent w (js "Retro") (js "2025-05-01") (deleteEvent (js "a1") state).
Proof.
move=> w state.
have [_ [H _]] :=
  store_operations_commute w (js "Retro") (js "2025-05-01") (js "a1") (js "b2")
    (js "x") state.
by split; [|exact: (H isT)].
Defined.

Lemma stored_names_are_trimmed_witness :
  let w := mkEntropy (Some (js "7f9c")) [::] [::] in
  let acts := [:: AddEvent w (js "  Retro ") (js "2025-05-01")] in
  let e := mkEvent (js "7f9c") (js "Retro") (js "2025-05-01") in
  e \in events (run acts) /\ trim (name e) = name e.
Proof.
move=> w acts e.
have [H _] := stored_names_are_trimmed acts.
by split; [|exact: (H e isT)].
Defined.

Lemma view_after_deleteEvent_witness :
  let e1 := mkEvent (js "e1") (js "Team Meeting") (js "2025-03-01") in
  let e3 := mkEvent (js "e3") (js "Retro") (js "2024-12-24") in
  let state := mkState [:: e1; e3] [::] in
  filteredEvents Ref.toLowerCase Ref.localeCompare
    (events (deleteEvent (js "e3") state)) (search (deleteEvent (js "e3") state))
  = [seq e <- filteredEvents Ref.toLowerCase Ref.localeCompare
                (events state) (search state) | id e != js "e3"].
Proof.
move=> e1 e3 state.
exact: (view_after_deleteEvent Ref.toLowerCase Ref_localeCompare_swap
          Ref_localeCompare_trans (js "e3") state).
Defined.

Lemma view_after_addEvent_witness :
  let w := mkEntropy (Some (js "7f9c")) [::] [::] in
  let e1 := mkEvent (js "e1") (js "Team Meeting") (js "2025-03-01") in
  let state := mkState [:: e1] (js "e") in
  let state' := addEvent w (js "Retro") (js "2024-12-24") state in
  let v := filteredEvents Ref.toLowerCase Ref.localeCompare in
  subseq (v (events state) (search state)) (v (events state') (search state')) /\
  size (v (events state') (search state'))
    <= (size (v (events state) (search state))).+1.
Proof.
move=> w e1 state state' v.
have [H1 [_ H3]] :=
  view_after_addEvent Ref.toLowerCase Ref_localeCompare_swap
    Ref_localeCompare_trans w (js "Retro") (js "2024-12-24") state.
by split; [exact: H1 | exact: H3].
Defined.

Lemma narrower_search_shows_fewer_witness :
  let e1 := mkEvent (js "e1") (js "Team Meeting") (js "2025-03-01") in
  let e2 := mkEvent (js "e2") (js "Tea Break") (js "2025-02-01") in
  let v := filteredEvents Ref.toLowerCase Ref.localeCompare [:: e1; e2] in
  includes (Ref.toLowerCase (trim (js "Team "))) (Ref.toLowerCase (trim (js " tea"))) /\
  subseq (v (js "Team ")) (v (js " tea")).
Proof.
move=> e1 e2 v.
by split; [|exact: (@narrower_search_shows_fewer Ref.toLowerCase Ref.localeCompare
                      [:: e1; e2] (js " tea") (js "Team ") isT)].
Defined.

Lemma view_shows_stored_events_witness :
  let e1 := mkEvent (js "e1") (js "Team Meeting") (js "2025-03-01") in
  let e2 := mkEvent (js "e2") (js "Tea Break") (js "2025-02-01") in
  let es := [:: e1; e2] in
  uniq [seq id e | e <- es] /\
  uniq [seq id e | e <- filteredEvents Ref.toLowerCase Ref.localeCompare es (js "tea")].
Proof.
move=> e1 e2 es.
have [_ [_ [_ H]]] :=
  view_shows_stored_events Ref.toLowerCase Ref_localeCompare_swap
    Ref_localeCompare_trans es (js "tea").
by split; [|exact: (H isT)].
Defined.

Lemma view_is_the_stable_arrangement_witness :
  let e1 := mkEvent (js "e1") (js "Team Meeting") (js "2025-03-01") in
  let e2 := mkEvent (js "e2") (js "Tea Break") (js "2025-03-01") in
  let e3 := mkEvent (js "e3") (js "Retro") (js "2024-12-24") in
  let t := [:: e3; e1; e2] in
  sorted (byDate Ref.localeCompare) t /\
  t = filteredEvents Ref.toLowerCase Ref.localeCompare [:: e3; e1; e2] [::].
Proof.
move=> e1 e2 e3 t.
by split; [|exact: (@view_is_the_stable_arrangement Ref.toLowerCase
                      Ref.localeCompare Ref_localeCompare_swap
                      Ref_localeCompare_trans [:: e3; e1; e2] [::] t isT
                      (fun d => erefl _))].
Defined.

Lemma view_ignores_insertion_order_witness :
  let e1 := mkEvent (js "e1") (js "Team Meeting") (js "2025-03-01") in
  let e3 := mkEvent (js "e3") (js "Retro") (js "2024-12-24") in
  let v := filteredEvents Ref.toLowerCase Ref.localeCompare in
  perm_eq [:: e1; e3] [:: e3; e1] /\
  v [:: e1; e3] (js "e") = v [:: e3; e1] (js "e").
Proof.
move=> e1 e3 v.
have noTies : {in [:: e1; e3] &,
    forall a b, sameRank Ref.localeCompare (date a) b -> a = b}.
  move=> a b; rewrite !inE.
  by move=> /orP [/eqP ->|/eqP ->] /orP [/eqP ->|/eqP ->].
by split; [|exact: (@view_ignores_insertion_order Ref.toLowerCase
                      Ref.localeCompare Ref_localeCompare_swap
                      Ref_localeCompare_trans [:: e1; e3] [:: e3; e1] (js "e")
                      isT noTies)].
Defined.

Lemma onSubmit_guards_and_resets_witness :
  let w := mkEntropy (Some (js "7f9c")) [::] [::] in
  let blank := mkForm (js "   ") (js "2025-03-01") in
  let filled := mkForm (js " Retro ") (js "2025-03-01") in
  (trim (formName blank) = [::] \/ formDate blank = [::]) /\
  onSubmit w blank initialPage = initialPage /\
  trim (formName filled) <> [::] /\ formDate filled <> [::] /\
  events (store (onSubmit w filled initialPage))
    = [:: mkEvent (js "7f9c") (js "Retro") (js "2025-03-01")].
Proof.
move=> w blank filled.
have [H1 _] := onSubmit_guards_and_resets w blank initialPage.
have [_ H2] := onSubmit_guards_and_resets w filled initialPage.
have N1 : trim (formName filled) <> [::] by [].
have N2 : formDate filled <> [::] by [].
by split; [left | split; [exact: (H1 (or_introl (erefl _))) | split;
     [|split; [|rewrite (H2 N1 N2)]]]].
Defined.

Lemma canSubmit_weaker_than_rules_witness :
  let w := mkEntropy (Some (js "7f9c")) [::] [::] in
  let filled := mkPage initialState (mkForm (js "Retro") (js "2025-03-01")) None None in
  let blank := mkPage initialState (mkForm (js "  ") (js "2025-03-01")) None None in
  validateName (formName (form filled)) = None /\
  validateDate Ref.dateParse (formDate (form filled)) = None /\
  canSubmit (form filled) /\
  ~~ canSubmit (form blank) /\
  store (handleSubmit Ref.dateParse w blank) = store blank.
Proof.
move=> w filled blank.
have [H1 _] := canSubmit_weaker_than_rules Ref.dateParse w filled.
have [_ H2] := canSubmit_weaker_than_rules Ref.dateParse w blank.
by split; [|split; [|split; [exact: (H1 (erefl _) (erefl _)) | split;
     [|exact: (H2 isT)]]]].
Defined.

Lemma form_flow_stores_well_formed_events_witness :
  let w := mkEntropy (Some (js "7f9c")) [::] [::] in
  let acts := [:: EditName (js " Retro "); EditDate (js "2025-13-40"); Submit w;
                  EditDate (js "2025-03-01"); Submit w; EditSearch (js "r")] in
  let e := mkEvent (js "7f9c") (js "Retro") (js "2025-03-01") in
  events (store (pageRun Ref.dateParse acts)) = [:: e] /\
  e \in events (store (pageRun Ref.dateParse acts)) /\
  matchesISOPattern (date e) /\ Ref.dateParse (date e) <> None.
Proof.
move=> w acts e.
have [_ [_ [_ [H4 H5]]]] :=
  @form_flow_stores_well_formed_events Ref.dateParse acts e isT.
by split; [|split; [|split; [exact: H4 | exact: H5]]].
Defined.

Lemma accepted_submit_adds_once_witness :
  let w := mkEntropy (Some (js "7f9c")) [::] [::] in
  let w' := mkEntropy (Some (js "11aa")) [::] [::] in
  let p := mkPage initialState (mkForm (js " Retro ") (js "2025-03-01")) None None in
  let p' := handleSubmit Ref.dateParse w p in
  validateName (formName (form p)) = None /\
  validateDate Ref.dateParse (formDate (form p)) = None /\
  canSubmit (form p') = false /\
  store (handleSubmit Ref.dateParse w' p') = store p'.
Proof.
move=> w w' p p'.
have [_ [_ [_ [_ [H5 H6]]]]] :=
  @accepted_submit_adds_once Ref.dateParse w w' p (erefl _) (erefl _).
by split; [|split; [|split; [exact: H5 | exact: H6]]].
Defined.

Lemma field_error_messages_witness :
  let v := js "   " in
  [/\ v <> [::], size v <= 200 & all isWhiteSpace v] /\
  validateName v = Some "Event name cannot be empty"%string /\
  (v <> [::] /\ ~ (matchesISOPattern v /\ Ref.dateParse v <> None)) /\
  validateDate Ref.dateParse v = Some "Invalid date"%string.
Proof.
move=> v.
have [_ [_ [[_ H3] [_ [_ H5]]]]] := field_error_messages Ref.dateParse v.
have A : [/\ v <> [::], size v <= 200 & all isWhiteSpace v] by [].
have B : v <> [::] /\ ~ (matchesISOPattern v /\ Ref.dateParse v <> None).
  by split=> // - [_].
by split; [|split; [exact: (H3 A) | split; [|exact: (H5 B)]]].
Defined.

Lemma rendered_list_rows_witness :
  let e1 := mkEvent (js "e1") (js "Team Meeting") (js "2025-03-01") in
  let e3 := mkEvent (js "e3") (js "Retro") (js "not a date") in
  let draw := renderList Ref.toLowerCase Ref.localeCompare Ref.dateParse
                Ref.toLocaleDateString in
  (forall e, e \in [:: e1; e3] ->
     ~~ nameMatches Ref.toLowerCase (trim (js "zzz")) e) /\
  draw (mkState [:: e1; e3] (js "zzz")) = NoEventsYet /\
  draw (mkState [:: e1; e3] (js "e")) =
    Rows [:: mkRow (js "e1") (js "Team Meeting") (Normal (js "Mar 01, 2025"));
             mkRow (js "e3") (js "Retro") (Normal (js "not a date"))] /\
  size [:: e1; e3] = count (nameMatches Ref.toLowerCase (trim (js "e"))) [:: e1; e3].
Proof.
move=> e1 e3 draw.
have none : forall e, e \in [:: e1; e3] ->
    ~~ nameMatches Ref.toLowerCase (trim (js "zzz")) e.
  by move=> e; rewrite !inE => /orP [/eqP ->|/eqP ->].
have [[_ H1] _] :=
  rendered_list_rows Ref.toLowerCase Ref.localeCompare Ref.dateParse
    Ref.toLocaleDateString (mkState [:: e1; e3] (js "zzz")).
have [_ H2] :=
  rendered_list_rows Ref.toLowerCase Ref.localeCompare Ref.dateParse
    Ref.toLocaleDateString (mkState [:: e1; e3] (js "e")).
have [_ [_ [H3 _]]] := H2 _ (erefl _).
by split; [exact: none | split; [exact: (H1 none) | split; [|exact: H3]]].
Defined.

Lemma persisted_session_reloads_witness :
  let w := mkEntropy (Some (js "7f9c")) [::] [::] in
  let acts := [:: AddEvent w (js "Retro") (js "2025-03-01"); SetSearch (js "re")] in
  let end_ := persistedRun acts (initialState, fun _ => None) in
  acts <> [::] /\
  search end_.1 = js "re" /\
  rehydrate end_.2 initialState
    = mkState [:: mkEvent (js "7f9c") (js "Retro") (js "2025-03-01")] [::].
Proof.
move=> w acts end_.
have N : acts <> [::] by [].
have [_ [_ [_ H]]] := @persisted_session_reloads acts initialState (fun _ => None) N.
by split; [|split; [|rewrite H]].
Defined.
